(** * Noise: a shallow embedding of the MakeCode noise extension

    The development follows the newest revision of the extension's
    source (the one with [MaskType], [CombineOptions] and the mask
    generators); the older revision kept in [noise_.ts] is embedded only
    where it differs ([Legacy.combineNoiseMaps]).

    Modelling conventions.
    - A JavaScript [number] is a [num]: a real number, one of the two
      infinities, or NaN.  Finite arithmetic is exact (no rounding, no
      overflow) and zero carries no sign; dividing by zero, [Math.sqrt] of a
      negative number and the like produce the IEEE special values, as in
      the source language.
    - Sizes and counts ([width], [height], [scale], [layers]) and loop
      counters are natural numbers; an enum-typed argument is its run-time
      integer.
    - An absent optional argument or a read outside an array is
      [undefined]; where the source would store [undefined] in a cell of a
      field the model stores [NaN], which is what every numeric consumer of
      the cell sees.
    - An exception (reading a property of [undefined]) is the result
      [TypeError].
    - The process-wide variables [nodes], [gradients] and [currentRng] are
      the fields of [State]; the random source is an interface. *)

From Stdlib Require Import Reals Lra Lia Psatz ZArith List Bool.
Import ListNotations.

Set Implicit Arguments.

(** ** Numbers *)

Inductive num : Type :=
| Fin (r : R)
| PInf
| NInf
| NaN.

Declare Scope num_scope.
Delimit Scope num_scope with num.
Bind Scope num_scope with num.

Definition of_nat (n : nat) : num := Fin (INR n).
Definition of_Z (z : Z) : num := Fin (IZR z).

(** The sign of a real, decided classically. *)
Inductive sign : Type := Neg | Zero | Pos.

Definition Rsign (r : R) : sign :=
  match total_order_T r 0 with
  | inleft (left _) => Neg
  | inleft (right _) => Zero
  | inright _ => Pos
  end.

Definition Rltb (a b : R) : bool := if Rlt_dec a b then true else false.

Definition nopp (a : num) : num :=
  match a with
  | Fin r => Fin (- r)
  | PInf => NInf
  | NInf => PInf
  | NaN => NaN
  end.

Definition nadd (a b : num) : num :=
  match a, b with
  | NaN, _ | _, NaN => NaN
  | Fin x, Fin y => Fin (x + y)
  | PInf, NInf | NInf, PInf => NaN
  | PInf, _ | _, PInf => PInf
  | NInf, _ | _, NInf => NInf
  end.

Definition nsub (a b : num) : num := nadd a (nopp b).

(** An infinity of the sign of [s]; [0 * Infinity] is NaN. *)
Definition inf_of_sign (s : sign) : num :=
  match s with Pos => PInf | Neg => NInf | Zero => NaN end.

Definition sign_neg (s : sign) : sign :=
  match s with Pos => Neg | Neg => Pos | Zero => Zero end.

Definition nmul (a b : num) : num :=
  match a, b with
  | NaN, _ | _, NaN => NaN
  | Fin x, Fin y => Fin (x * y)
  | Fin x, PInf | PInf, Fin x => inf_of_sign (Rsign x)
  | Fin x, NInf | NInf, Fin x => inf_of_sign (sign_neg (Rsign x))
  | PInf, PInf | NInf, NInf => PInf
  | PInf, NInf | NInf, PInf => NInf
  end.

(** Division.  [Fin 0] stands for both zeros of the source, whose
    quotients differ in sign: for a zero divisor [ndiv] gives the infinity
    that [+0] yields.  The properties of the program stated below do not
    rest on the sign of an infinity obtained from a zero divisor. *)
Definition ndiv (a b : num) : num :=
  match a, b with
  | NaN, _ | _, NaN => NaN
  | Fin x, Fin y =>
      match Rsign y with
      | Zero => inf_of_sign (Rsign x)
      | _ => Fin (x / y)
      end
  | Fin _, PInf | Fin _, NInf => Fin 0
  | PInf, Fin y => match Rsign y with Neg => NInf | _ => PInf end
  | NInf, Fin y => match Rsign y with Neg => PInf | _ => NInf end
  | _, _ => NaN
  end.

Notation "a + b" := (nadd a b) : num_scope.
Notation "a - b" := (nsub a b) : num_scope.
Notation "a * b" := (nmul a b) : num_scope.
Notation "a / b" := (ndiv a b) : num_scope.

(** [a < b] and [a > b] of the source: false as soon as NaN is involved. *)
Definition nltb (a b : num) : bool :=
  match a, b with
  | NaN, _ | _, NaN => false
  | Fin x, Fin y => Rltb x y
  | NInf, NInf | PInf, _ | _, NInf => false
  | NInf, _ | _, PInf => true
  end.

Definition ngtb (a b : num) : bool := nltb b a.

(** [a === b] on numbers. *)
Definition neqb (a b : num) : bool :=
  match a, b with
  | Fin x, Fin y => if Req_dec_T x y then true else false
  | PInf, PInf | NInf, NInf => true
  | _, _ => false
  end.

(** Truthiness of a number: [0] and [NaN] are falsy. *)
Definition truthy (a : num) : bool :=
  match a with
  | Fin r => if Req_dec_T r 0 then false else true
  | NaN => false
  | _ => true
  end.

(** ** The [Math] object *)

Definition Math_floor (a : num) : num :=
  match a with
  | Fin r => Fin (IZR (Int_part r))
  | _ => a
  end.

Definition Math_abs (a : num) : num :=
  match a with
  | Fin r => Fin (Rabs r)
  | PInf | NInf => PInf
  | NaN => NaN
  end.

Definition Math_sqrt (a : num) : num :=
  match a with
  | Fin r => if Rltb r 0 then NaN else Fin (sqrt r)
  | PInf => PInf
  | NInf | NaN => NaN
  end.

Definition Math_max (a b : num) : num :=
  match a, b with
  | NaN, _ | _, NaN => NaN
  | Fin x, Fin y => Fin (Rmax x y)
  | PInf, _ | _, PInf => PInf
  | NInf, c | c, NInf => c
  end.

Definition Math_min (a b : num) : num :=
  match a, b with
  | NaN, _ | _, NaN => NaN
  | Fin x, Fin y => Fin (Rmin x y)
  | NInf, _ | _, NInf => NInf
  | PInf, c | c, PInf => c
  end.

Definition Math_cos (a : num) : num :=
  match a with Fin r => Fin (cos r) | _ => NaN end.

Definition Math_sin (a : num) : num :=
  match a with Fin r => Fin (sin r) | _ => NaN end.

Definition Math_PI : num := Fin PI.

(** [x ** n] and [Math.pow(x, n)] for an exponent that is a natural
    number (the literals 3, 4, 5 of [smootherstep] and the layer index). *)
Definition npow (a : num) (n : nat) : num :=
  match n with
  | O => Fin 1
  | _ =>
      match a with
      | Fin r => Fin (r ^ n)
      | PInf => PInf
      | NInf => if Nat.even n then PInf else NInf
      | NaN => NaN
      end
  end.

(** [Math.pow(x, 1.5)]. *)
Definition Math_pow_1_5 (a : num) : num :=
  match a with
  | Fin r =>
      match Rsign r with
      | Neg => NaN
      | Zero => Fin 0
      | Pos => Fin (Rpower r (3 / 2))
      end
  | PInf | NInf => PInf
  | NaN => NaN
  end.

(** [a % b]: the remainder of the division truncated towards zero. *)
Definition Rtrunc (r : R) : Z :=
  if Rltb r 0 then (- Int_part (- r))%Z else Int_part r.

Definition nrem (a b : num) : num :=
  match a, b with
  | Fin x, Fin y =>
      match Rsign y with
      | Zero => NaN
      | _ => Fin (x - y * IZR (Rtrunc (x / y)))
      end
  | Fin x, PInf | Fin x, NInf => Fin x
  | _, _ => NaN
  end.

(** [ToNumber] of a possibly [undefined] number. *)
Definition to_number (v : option num) : num :=
  match v with Some a => a | None => NaN end.

(** ** Arrays, loops and exceptions *)

Inductive result (A : Type) : Type :=
| Ok (a : A)
| TypeError.

Arguments Ok {A} a.
Arguments TypeError {A}.

(** A field: [number[][]], rows first. *)
Definition Field : Type := list (list num).

(** [m[y][x]] where both reads are numeric reads of a field. *)
Definition cell (m : Field) (y x : nat) : num := nth x (nth y m []) NaN.

(** [a[i]] for an index computed by [Math.floor]: [undefined] outside. *)
Definition lookupZ {A : Type} (a : list A) (i : Z) : option A :=
  if (i <? 0)%Z then None else nth_error a (Z.to_nat i).

(** [for (let i = 0; i < n; i++) out.push(body(i))] with a pure body. *)
Definition tabulate {A : Type} (n : nat) (body : nat -> A) : list A :=
  map body (seq 0 n).

(** The same loop when the body may throw: the first exception ends it. *)
Fixpoint for_each_from {A : Type} (i n : nat) (body : nat -> result A)
  : result (list A) :=
  match n with
  | O => Ok []
  | S n' =>
      match body i with
      | TypeError => TypeError
      | Ok a =>
          match for_each_from (S i) n' body with
          | TypeError => TypeError
          | Ok l => Ok (a :: l)
          end
      end
  end.

Definition for_each {A : Type} (n : nat) (body : nat -> result A)
  : result (list A) := for_each_from 0 n body.

(** The same loop when the body advances a state (the random source). *)
Fixpoint for_state_from {S A : Type} (i n : nat) (body : nat -> S -> A * S)
  (s : S) : list A * S :=
  match n with
  | O => ([], s)
  | S n' =>
      let (a, s1) := body i s in
      let (l, s2) := for_state_from (Datatypes.S i) n' body s1 in
      (a :: l, s2)
  end.

Definition for_state {S A : Type} (n : nat) (body : nat -> S -> A * S)
  (s : S) : list A * S := for_state_from 0 n body s.

(** ** Enumerations (their run-time values) *)

Module NoiseType.
Definition Perlin : Z := 0.
Definition Static : Z := 1.
Definition Ridged : Z := 2.
Definition Terrain : Z := 3.
Definition River : Z := 4.
End NoiseType.

Module MaskType.
Definition Gradient : Z := 0.
Definition Solid : Z := 1.
Definition Island : Z := 2.
Definition Edge_falloff : Z := 3.
Definition Vertical_gradient : Z := 4.
Definition Horizontal_gradient : Z := 5.
Definition Checkerboard : Z := 6.
End MaskType.

Module CombineOptions.
Definition Product : Z := 0.
Definition Average : Z := 1.
Definition Difference : Z := 2.
Definition Union : Z := 3.
Definition Intersection : Z := 4.
Definition Quotient : Z := 5.
End CombineOptions.

(** ** Coherent noise over a gradient grid *)

Record vec : Type := mkvec { vec_x : num; vec_y : num }.

Definition Grid : Type := list (list vec).

(** [gradients[vert_y][vert_x]] followed by the reads of [g_vect.x] and
    [g_vect.y]: a missing row or a missing vector throws. *)
Definition dot_prod_grid (gradients : Grid) (x y : num) (vert_x vert_y : Z)
  : result num :=
  match lookupZ gradients vert_y with
  | None => TypeError
  | Some row =>
      match lookupZ row vert_x with
      | None => TypeError
      | Some g_vect =>
          let d_x := (x - of_Z vert_x)%num in
          let d_y := (y - of_Z vert_y)%num in
          Ok (d_x * vec_x g_vect + d_y * vec_y g_vect)%num
      end
  end.

Definition smootherstep (x : num) : num :=
  (Fin 6 * npow x 5 - Fin 15 * npow x 4 + Fin 10 * npow x 3)%num.

Definition interp (x a b : num) : num :=
  (a + smootherstep x * (b - a))%num.

(** The value [interp(sy, ix0, ix1)] of [perlin_get], before it is mapped
    to [(v + 1) / 2].  A coordinate that is not finite floors to a value
    that indexes no row, so the first gradient read throws. *)
Definition perlin_blend (gradients : Grid) (x y : num) : result num :=
  match x, y with
  | Fin xr, Fin yr =>
      let x0 := Int_part xr in
      let x1 := (x0 + 1)%Z in
      let y0 := Int_part yr in
      let y1 := (y0 + 1)%Z in
      let sx := (x - of_Z x0)%num in
      let sy := (y - of_Z y0)%num in
      match dot_prod_grid gradients x y x0 y0 with
      | TypeError => TypeError
      | Ok n0 =>
      match dot_prod_grid gradients x y x1 y0 with
      | TypeError => TypeError
      | Ok n1 =>
      let ix0 := interp sx n0 n1 in
      match dot_prod_grid gradients x y x0 y1 with
      | TypeError => TypeError
      | Ok n0' =>
      match dot_prod_grid gradients x y x1 y1 with
      | TypeError => TypeError
      | Ok n1' =>
      let ix1 := interp sx n0' n1' in
      Ok (interp sy ix0 ix1)
      end end end end
  | _, _ => TypeError
  end.

Definition perlin_get (gradients : Grid) (x y : num) : result num :=
  match perlin_blend gradients x y with
  | TypeError => TypeError
  | Ok v => Ok ((v + Fin 1) / Fin 2)%num
  end.

(** The sampling coordinate [i / size * (nodes - 1)] of the generators. *)
Definition lattice_coord (i size nodes : nat) : num :=
  (of_nat i / of_nat size * (of_nat nodes - Fin 1))%num.

Definition generate_perlin_noise (nodes : nat) (gradients : Grid)
  (width height : nat) : result Field :=
  for_each height (fun y =>
    for_each width (fun x =>
      perlin_get gradients (lattice_coord x width nodes)
                           (lattice_coord y height nodes))).

(** [1 - Math.abs(2 * value - 1)]. *)
Definition ridged_value (value : num) : num :=
  (Fin 1 - Math_abs (Fin 2 * value - Fin 1))%num.

Definition generate_ridged_noise (nodes : nat) (gradients : Grid)
  (width height : nat) : result Field :=
  for_each height (fun y =>
    for_each width (fun x =>
      match perlin_get gradients (lattice_coord x width nodes)
                                 (lattice_coord y height nodes) with
      | TypeError => TypeError
      | Ok value => Ok (ridged_value value)
      end)).

Definition generate_terrain_noise (nodes : nat) (gradients : Grid)
  (width height : nat) : result Field :=
  for_each height (fun y =>
    for_each width (fun x =>
      match perlin_get gradients (lattice_coord x width nodes)
                                 (lattice_coord y height nodes) with
      | TypeError => TypeError
      | Ok value => Ok (Math_pow_1_5 value)
      end)).

(** [ridged[y][x]] throws when row [y] is missing; a missing cell reads as
    [undefined]. *)
Definition generate_river_noise (nodes : nat) (gradients : Grid)
  (width height : nat) : result Field :=
  match generate_ridged_noise nodes gradients width height with
  | TypeError => TypeError
  | Ok ridged =>
      for_each height (fun y =>
        for_each width (fun x =>
          match nth_error ridged y with
          | None => TypeError
          | Some row => Ok (Fin 1 - nth x row NaN)%num
          end))
  end.

(** ** Masks *)

Definition generate_gradient_mask (width height : nat) : Field :=
  let cx := (of_nat width / Fin 2)%num in
  let cy := (of_nat height / Fin 2)%num in
  let maxDist := Math_sqrt (cx * cx + cy * cy) in
  tabulate height (fun y =>
    tabulate width (fun x =>
      let dx := (of_nat x - cx)%num in
      let dy := (of_nat y - cy)%num in
      let dist := Math_sqrt (dx * dx + dy * dy) in
      let value := (Fin 1 - dist / maxDist)%num in
      let value := if nltb value (Fin 0) then Fin 0 else value in
      let value := if ngtb value (Fin 1) then Fin 1 else value in
      value)).

Definition generate_solid_mask (width height : nat) (value : option num)
  : Field :=
  tabulate height (fun y => tabulate width (fun x => to_number value)).

Definition generate_vertical_gradient (width height : nat) : Field :=
  tabulate height (fun y =>
    let value := (of_nat y / (of_nat height - Fin 1))%num in
    tabulate width (fun x => value)).

Definition generate_horizontal_gradient (width height : nat) : Field :=
  tabulate height (fun y =>
    tabulate width (fun x => (of_nat x / (of_nat width - Fin 1))%num)).

Definition generate_island_mask (width height : nat) : Field :=
  let cx := (of_nat width / Fin 2)%num in
  let cy := (of_nat height / Fin 2)%num in
  let maxDist := Math_min cx cy in
  tabulate height (fun y =>
    tabulate width (fun x =>
      let dx := (of_nat x - cx)%num in
      let dy := (of_nat y - cy)%num in
      let dist := Math_sqrt (dx * dx + dy * dy) in
      let value := (Fin 1 - dist / maxDist)%num in
      if nltb value (Fin 0) then Fin 0 else value)).

Definition generate_checkerboard (width height : nat) (size : option num)
  : Field :=
  tabulate height (fun y =>
    tabulate width (fun x =>
      if neqb (nrem (Math_floor (of_nat x / to_number size)
                     + Math_floor (of_nat y / to_number size)) (Fin 2))
              (Fin 0)
      then Fin 1 else Fin 0)).

Definition generate_edge_falloff (width height : nat) (margin : option num)
  : Field :=
  tabulate height (fun y =>
    tabulate width (fun x =>
      let dx := Math_min (of_nat x) (of_nat width - Fin 1 - of_nat x) in
      let dy := Math_min (of_nat y) (of_nat height - Fin 1 - of_nat y) in
      let d := Math_min dx dy in
      Math_min (Fin 1) (d / to_number margin))).

(** ** Field algebra *)

(** The [switch] of [combineNoiseMaps]. *)
Definition combine_cell (operation : Z) (val1 val2 : num) : num :=
  if (operation =? CombineOptions.Product)%Z then Math_sqrt (val1 * val2)
  else if (operation =? CombineOptions.Average)%Z then
    ((val1 + val2) / Fin 2)%num
  else if (operation =? CombineOptions.Difference)%Z then
    Math_max (Fin 0) (Math_min (Fin 1) (val1 - val2 + Fin (1 / 2)))
  else if (operation =? CombineOptions.Union)%Z then Math_max val1 val2
  else if (operation =? CombineOptions.Intersection)%Z then
    Math_min val1 val2
  else if (operation =? CombineOptions.Quotient)%Z then (val1 / val2)%num
  else val1.

(** [noiseMap1[0].length] throws on a field without rows. *)
Definition combineNoiseMaps (noiseMap1 noiseMap2 : Field) (operation : Z)
  : result Field :=
  match noiseMap1, noiseMap2 with
  | row1 :: _, row2 :: _ =>
      let h := Nat.min (length noiseMap1) (length noiseMap2) in
      let w := Nat.min (length row1) (length row2) in
      Ok (tabulate h (fun y =>
            tabulate w (fun x =>
              combine_cell operation (cell noiseMap1 y x)
                                     (cell noiseMap2 y x))))
  | _, _ => TypeError
  end.

Definition invert_noise (noise : Field) : result Field :=
  match noise with
  | row0 :: _ =>
      Ok (tabulate (length noise) (fun y =>
            tabulate (length row0) (fun x => (Fin 1 - cell noise y x)%num)))
  | [] => TypeError
  end.

Definition thresholdNoiseMap (noiseMap : Field) (threshold : num)
  : result Field :=
  match noiseMap with
  | row0 :: _ =>
      Ok (tabulate (length noiseMap) (fun y =>
            tabulate (length row0) (fun x =>
              if ngtb (cell noiseMap y x) threshold then Fin 1 else Fin 0)))
  | [] => TypeError
  end.

(** The older revision's [combineNoiseMaps]: operation 0 is a plain
    multiplication and there is no quotient. *)
Module Legacy.

Definition combine_cell (operation : Z) (val1 val2 : num) : num :=
  if (operation =? 0)%Z then (val1 * val2)%num
  else if (operation =? 1)%Z then ((val1 + val2) / Fin 2)%num
  else if (operation =? 2)%Z then
    Math_max (Fin 0) (Math_min (Fin 1) (val1 - val2 + Fin (1 / 2)))
  else if (operation =? 3)%Z then Math_max val1 val2
  else if (operation =? 4)%Z then Math_min val1 val2
  else val1.

Definition combineNoiseMaps (noiseMap1 noiseMap2 : Field) (operation : Z)
  : result Field :=
  match noiseMap1, noiseMap2 with
  | row1 :: _, row2 :: _ =>
      let h := Nat.min (length noiseMap1) (length noiseMap2) in
      let w := Nat.min (length row1) (length row2) in
      Ok (tabulate h (fun y =>
            tabulate w (fun x =>
              combine_cell operation (cell noiseMap1 y x)
                                     (cell noiseMap2 y x))))
  | _, _ => TypeError
  end.

End Legacy.

(** ** The random source and the process-wide state *)

(** [FastRandomBlocks]: an external class; [nextNumber] yields an integer
    (between 0 and 65535) and advances the generator. *)
Class FastRandomBlocks (rng : Type) : Type := {
  createRNG : Z -> rng;
  nextNumber : rng -> Z * rng
}.

Section Synthesis.

Context {rng : Type} {RS : FastRandomBlocks rng}.

Record State : Type := mkState {
  nodes : nat;
  gradients : Grid;
  currentRng : option rng
}.

Definition setSeed (g : rng) (s : State) : State :=
  mkState (nodes s) (gradients s) (Some g).

Definition seeded_random (g : rng) : num * rng :=
  let (n, g') := nextNumber g in ((of_Z n / Fin 65535)%num, g').

Definition random_unit_vector (g : rng) : vec * rng :=
  let (r, g') := seeded_random g in
  let theta := (r * Fin 2 * Math_PI)%num in
  (mkvec (Math_cos theta) (Math_sin theta), g').

(** The new value of [gradients], for the current [nodes]. *)
Definition initialize_gradients (nodes : nat) (g : rng) : Grid * rng :=
  for_state nodes (fun i =>
    for_state nodes (fun j => random_unit_vector)) g.

Definition generate_static_noise (width height : nat) (g : rng)
  : Field * rng :=
  for_state height (fun y =>
    for_state width (fun x => seeded_random)) g.

(** [if (!currentRng) currentRng = new FastRandomBlocks(1234)]. *)
Definition ensure_rng (s : State) : rng :=
  match currentRng s with
  | Some g => g
  | None => createRNG 1234
  end.

(** [scale || 4]. *)
Definition scale_or_default (scale : option nat) : nat :=
  match scale with
  | Some (S n) => S n
  | _ => 4%nat
  end.

(** [persistence || 0.5]. *)
Definition persistence_or_default (persistence : option num) : num :=
  match persistence with
  | Some p => if truthy p then p else Fin (1 / 2)
  | None => Fin (1 / 2)
  end.

(** A coherent-noise kind: set [nodes], regenerate [gradients], run the
    generator on them. *)
Definition coherent
  (generate : nat -> Grid -> nat -> nat -> result Field)
  (width height : nat) (scale : option nat) (s : State)
  : result Field * State :=
  let g := ensure_rng s in
  let n := scale_or_default scale in
  let (G, g') := initialize_gradients n g in
  (generate n G width height, mkState n G (Some g')).

Definition createNoiseMap (noiseType : Z) (width height : nat)
  (scale : option nat) (s : State) : result Field * State :=
  if (noiseType =? NoiseType.Perlin)%Z then
    coherent generate_perlin_noise width height scale s
  else if (noiseType =? NoiseType.Static)%Z then
    let (F, g') := generate_static_noise width height (ensure_rng s) in
    (Ok F, mkState (nodes s) (gradients s) (Some g'))
  else if (noiseType =? NoiseType.Ridged)%Z then
    coherent generate_ridged_noise width height scale s
  else if (noiseType =? NoiseType.Terrain)%Z then
    coherent generate_terrain_noise width height scale s
  else if (noiseType =? NoiseType.River)%Z then
    coherent generate_river_noise width height scale s
  else
    (Ok [], mkState (nodes s) (gradients s) (Some (ensure_rng s))).

(** The [switch] has no [default]: any other [maskType] falls off the end
    of the function, which returns [undefined] ([None]). *)
Definition CreateNoiseMask (maskType : Z) (width height : nat)
  (opt : option num) (s : State) : option Field * State :=
  let s' := mkState (nodes s) (gradients s) (Some (ensure_rng s)) in
  if (maskType =? MaskType.Gradient)%Z then
    (Some (generate_gradient_mask width height), s')
  else if (maskType =? MaskType.Solid)%Z then
    (Some (generate_solid_mask width height opt), s')
  else if (maskType =? MaskType.Island)%Z then
    (Some (generate_island_mask width height), s')
  else if (maskType =? MaskType.Edge_falloff)%Z then
    (Some (generate_edge_falloff width height opt), s')
  else if (maskType =? MaskType.Horizontal_gradient)%Z then
    (Some (generate_horizontal_gradient width height), s')
  else if (maskType =? MaskType.Vertical_gradient)%Z then
    (Some (generate_vertical_gradient width height), s')
  else if (maskType =? MaskType.Checkerboard)%Z then
    (Some (generate_checkerboard width height opt), s')
  else (None, s').

(** One octave of [createLayeredNoiseMap]: the two inner loops, adding
    [noiseValue * amplitude] to every cell. *)
Definition add_layer (gradients : Grid) (width height : nat)
  (layerNodes amplitude : num) (noiseMap : Field) : result Field :=
  for_each height (fun y =>
    for_each width (fun x =>
      match perlin_get gradients (of_nat x / of_nat width * layerNodes)
                                 (of_nat y / of_nat height * layerNodes)
      with
      | TypeError => TypeError
      | Ok noiseValue => Ok (cell noiseMap y x + noiseValue * amplitude)%num
      end)).

(** The loop over the layers [i, i + count): its variables are the
    accumulators; the gradient grid and the generator are the state. *)
Fixpoint layer_loop (count i : nat) (nodes width height : nat)
  (persistenceValue : num) (noiseMap : Field)
  (amplitude totalAmplitude : num) (G : Grid) (g : rng)
  : result (Field * num) * (Grid * rng) :=
  match count with
  | O => (Ok (noiseMap, totalAmplitude), (G, g))
  | S count' =>
      let (G', g') := initialize_gradients nodes g in
      let frequency := npow (Fin 2) i in
      let layerNodes := (of_nat nodes * frequency)%num in
      match add_layer G' width height layerNodes amplitude noiseMap with
      | TypeError => (TypeError, (G', g'))
      | Ok noiseMap' =>
          layer_loop count' (S i) nodes width height persistenceValue
            noiseMap' (amplitude * persistenceValue)%num
            (totalAmplitude + amplitude)%num G' g'
      end
  end.

Definition createLayeredNoiseMap (width height layers : nat)
  (scale : option nat) (persistence : option num) (s : State)
  : result Field * State :=
  let g := ensure_rng s in
  let n := scale_or_default scale in
  let persistenceValue := persistence_or_default persistence in
  let noiseMap := tabulate height (fun y => tabulate width (fun x => Fin 0)) in
  match layer_loop layers 0 n width height persistenceValue noiseMap
          (Fin 1) (Fin 0) (gradients s) g with
  | (TypeError, (G, g')) => (TypeError, mkState n G (Some g'))
  | (Ok (noiseMap', totalAmplitude), (G, g')) =>
      (Ok (map (map (fun v => (v / totalAmplitude)%num)) noiseMap'),
       mkState n G (Some g'))
  end.

End Synthesis.

Arguments State rng : clear implicits.

(** ** Stand-ins for the random source

    [FastRandomBlocks] lives outside the repository; closed examples run
    on this stand-in, a small linear congruential generator whose state is
    the last draw. *)

#[export] Instance LCG : FastRandomBlocks Z := {
  createRNG seed := seed;
  nextNumber g := let g' := ((g * 75 + 74) mod 65537)%Z in
                  ((g' mod 65536)%Z, g')
}.

(** A second stand-in replays a list of draws (and draws 0 once the list
    is used up). *)


(** The state a program starts in: [nodes = 12], no gradients yet, and a
    generator seeded with [seed]. *)
Definition initial_state (seed : Z) : State Z :=
  mkState 12 [] (Some (createRNG seed)).

(** ** Vocabulary of the statements *)

Local Open Scope R_scope.

(** A field of [h] rows that all have [w] cells. *)
Definition rectangular (h w : nat) (m : Field) : Prop :=
  length m = h /\ Forall (fun row => length row = w) m.

(** [n] rows of [n] vectors. *)
Definition square_grid (n : nat) (G : Grid) : Prop :=
  length G = n /\ Forall (fun row => length row = n) G.

(** A vector with finite components of Euclidean length 1. *)
Definition unit_vec (g : vec) : Prop :=
  exists gx gy, g = mkvec (Fin gx) (Fin gy) /\ gx * gx + gy * gy = 1.

Definition unit_grid (G : Grid) : Prop := Forall (Forall unit_vec) G.

Definition in_grid (G : Grid) (g : vec) : Prop :=
  exists row, In row G /\ In g row.

(** The value [dot_prod_grid] returns once it has read the vector [g]. *)
Definition dot_with (g : vec) (x y : num) (vert_x vert_y : Z) : num :=
  ((x - of_Z vert_x) * vec_x g + (y - of_Z vert_y) * vec_y g)%num.

(** The kinds of [createNoiseMap] that evaluate coherent noise. *)
Definition coherent_kinds : list Z :=
  [NoiseType.Perlin; NoiseType.Ridged; NoiseType.Terrain; NoiseType.River].

(** The quintic weight, on reals. *)
Definition smooth (t : R) : R := 6 * t ^ 5 - 15 * t ^ 4 + 10 * t ^ 3.

(** The unit vector made from the draw [n]. *)
Definition unit_of_draw (n : Z) : vec :=
  mkvec (Fin (cos (IZR n / 65535 * 2 * PI)))
        (Fin (sin (IZR n / 65535 * 2 * PI))).

(** A 2 x 2 grid of unit vectors for closed examples. *)
Definition sample_grid : Grid :=
  [[mkvec (Fin 1) (Fin 0); mkvec (Fin 0) (Fin 1)];
   [mkvec (Fin (-1)) (Fin 0); mkvec (Fin (3 / 5)) (Fin (4 / 5))]].

(** A number of the interval [0, 1]. *)
Definition in_unit (v : num) : Prop := exists r, v = Fin r /\ 0 <= r <= 1.

(** A field all of whose cells are numbers of [0, 1]. *)
Definition normalised (F : Field) : Prop :=
  forall row, In row F -> forall v, In v row -> in_unit v.

(** A field all of whose cells are 0 or 1. *)
Definition binary (F : Field) : Prop :=
  forall row, In row F -> forall v, In v row -> v = Fin 0 \/ v = Fin 1.

(** The generator after [k] draws, and the [k]-th draw (counted from 0). *)
Fixpoint advance {rng : Type} {RS : FastRandomBlocks rng} (g : rng) (k : nat)
  : rng :=
  match k with
  | O => g
  | S k' => advance (snd (nextNumber g)) k'
  end.

Definition draw {rng : Type} {RS : FastRandomBlocks rng} (g : rng) (k : nat)
  : Z := fst (nextNumber (advance g k)).

(** * Properties *)

(** ** Numbers *)

Lemma Rsign_pos (r : R) : 0 < r -> Rsign r = Pos.
Proof.
  intros H. unfold Rsign.
  destruct (total_order_T r 0) as [[Hlt | Heq] | Hgt]; try reflexivity; lra.
Qed.

Lemma Rsign_neg (r : R) : r < 0 -> Rsign r = Neg.
Proof.
  intros H. unfold Rsign.
  destruct (total_order_T r 0) as [[Hlt | Heq] | Hgt]; try reflexivity; lra.
Qed.

Lemma Rsign_zero : Rsign 0 = Zero.
Proof.
  unfold Rsign.
  destruct (total_order_T 0 0) as [[Hlt | Heq] | Hgt]; try reflexivity; lra.
Qed.

Lemma ndiv_fin (a b : R) : b <> 0 -> (Fin a / Fin b)%num = Fin (a / b).
Proof.
  intros Hb. unfold ndiv.
  destruct (Rtotal_order b 0) as [Hlt | [Heq | Hgt]].
  - now rewrite (Rsign_neg Hlt).
  - contradiction.
  - now rewrite (Rsign_pos Hgt).
Qed.

Lemma ndiv_zero_zero : (Fin 0 / Fin 0)%num = NaN.
Proof. unfold ndiv. rewrite Rsign_zero. reflexivity. Qed.

Lemma ndiv_pos_zero (a : R) : 0 < a -> (Fin a / Fin 0)%num = PInf.
Proof.
  intros Ha. unfold ndiv. rewrite Rsign_zero, (Rsign_pos Ha). reflexivity.
Qed.

Lemma ndiv_neg_zero (a : R) : a < 0 -> (Fin a / Fin 0)%num = NInf.
Proof.
  intros Ha. unfold ndiv. rewrite Rsign_zero, (Rsign_neg Ha). reflexivity.
Qed.

Lemma Fin_inj (a b : R) : Fin a = Fin b -> a = b.
Proof. intros H. now injection H. Qed.

Lemma Int_part_IZR (z : Z) : Int_part (IZR z) = z.
Proof. symmetry. apply Int_part_spec. lra. Qed.

Lemma Int_part_bounds (r : R) (z : Z) :
  IZR z <= r < IZR z + 1 -> Int_part r = z.
Proof. intros H. symmetry. apply Int_part_spec. lra. Qed.

(** ** Loops *)

Lemma tabulate_length {A : Type} (n : nat) (f : nat -> A) :
  length (tabulate n f) = n.
Proof. unfold tabulate. now rewrite length_map, length_seq. Qed.

Lemma nth_tabulate {A : Type} (n : nat) (f : nat -> A) (i : nat) (d : A) :
  (i < n)%nat -> nth i (tabulate n f) d = f i.
Proof.
  intros Hi. unfold tabulate.
  rewrite (nth_indep _ d (f 0%nat)) by now rewrite length_map, length_seq.
  rewrite map_nth, seq_nth by assumption. reflexivity.
Qed.

Lemma cell_tabulate (h w : nat) (f : nat -> nat -> num) (y x : nat) :
  (y < h)%nat -> (x < w)%nat ->
  cell (tabulate h (fun y => tabulate w (f y))) y x = f y x.
Proof.
  intros Hy Hx. unfold cell.
  rewrite nth_tabulate by assumption. now apply nth_tabulate.
Qed.

Lemma for_each_from_ok {A : Type} (body : nat -> result A) (f : nat -> A)
  (n i : nat) :
  (forall k, (i <= k < i + n)%nat -> body k = Ok (f k)) ->
  for_each_from i n body = Ok (map f (seq i n)).
Proof.
  revert i. induction n as [| n IH]; intros i Hbody; simpl.
  - reflexivity.
  - rewrite Hbody by lia. rewrite IH; [reflexivity |].
    intros k Hk. apply Hbody. lia.
Qed.

Lemma for_each_ok {A : Type} (body : nat -> result A) (f : nat -> A)
  (n : nat) :
  (forall k, (k < n)%nat -> body k = Ok (f k)) ->
  for_each n body = Ok (tabulate n f).
Proof.
  intros H. unfold for_each, tabulate. apply for_each_from_ok.
  intros k Hk. apply H. lia.
Qed.

Lemma for_each_from_inv {A : Type} (body : nat -> result A) (n i : nat)
  (l : list A) :
  for_each_from i n body = Ok l ->
  length l = n /\
  forall k, (k < n)%nat -> nth_error l k = None \/
                            exists a, nth_error l k = Some a /\
                                      body (i + k)%nat = Ok a.
Proof.
  revert i l. induction n as [| n IH]; intros i l; simpl.
  - intros H. injection H as <-. split; [reflexivity | lia].
  - destruct (body i) as [a |] eqn:Ha; [| discriminate].
    destruct (for_each_from (S i) n body) as [l' |] eqn:Hl; [| discriminate].
    intros H. injection H as <-.
    destruct (IH _ _ Hl) as [Hlen Hnth]. split; [simpl; lia |].
    intros [| k] Hk.
    + right. exists a. rewrite Nat.add_0_r. now split.
    + replace (i + S k)%nat with (S i + k)%nat by lia.
      simpl. apply Hnth. lia.
Qed.

Lemma for_each_inv {A : Type} (body : nat -> result A) (n : nat)
  (l : list A) (d : A) :
  for_each n body = Ok l ->
  length l = n /\ forall k, (k < n)%nat -> body k = Ok (nth k l d).
Proof.
  intros H. destruct (for_each_from_inv _ _ _ H) as [Hlen Hnth].
  split; [assumption |]. intros k Hk.
  destruct (Hnth k Hk) as [Hnone | [a [Hsome Ha]]].
  - apply nth_error_None in Hnone. lia.
  - simpl in Ha. rewrite Ha. f_equal. symmetry.
    now apply nth_error_nth.
Qed.

(** The loop throws exactly when some iteration throws. *)
Lemma for_each_from_throws {A : Type} (body : nat -> result A) (n i k : nat) :
  (i <= k < i + n)%nat -> body k = TypeError ->
  for_each_from i n body = TypeError.
Proof.
  revert i. induction n as [| n IH]; intros i Hk Hbody; simpl; [lia |].
  destruct (Nat.eq_dec i k) as [-> | Hne].
  - now rewrite Hbody.
  - destruct (body i); [| reflexivity].
    rewrite IH; [reflexivity | lia | assumption].
Qed.

Lemma for_each_throws {A : Type} (body : nat -> result A) (n k : nat) :
  (k < n)%nat -> body k = TypeError -> for_each n body = TypeError.
Proof.
  intros Hk Hb. unfold for_each. apply for_each_from_throws with k; [lia | easy].
Qed.

Lemma for_state_from_length {S A : Type} (body : nat -> S -> A * S)
  (n i : nat) (s : S) :
  length (fst (for_state_from i n body s)) = n.
Proof.
  revert i s. induction n as [| n IH]; intros i s; simpl; [reflexivity |].
  destruct (body i s) as [a s1].
  specialize (IH (Datatypes.S i) s1).
  destruct (for_state_from (Datatypes.S i) n body s1) as [l s2].
  simpl in *. now rewrite IH.
Qed.

(** Every element the loop pushes satisfies what every iteration
    guarantees. *)
Lemma for_state_from_Forall {S A : Type} (body : nat -> S -> A * S)
  (P : A -> Prop) (n i : nat) (s : S) :
  (forall k t, P (fst (body k t))) ->
  Forall P (fst (for_state_from i n body s)).
Proof.
  intros HP. revert i s. induction n as [| n IH]; intros i s; simpl.
  - constructor.
  - specialize (HP i s). destruct (body i s) as [a s1].
    specialize (IH (Datatypes.S i) s1).
    destruct (for_state_from (Datatypes.S i) n body s1) as [l s2].
    simpl in *. now constructor.
Qed.

(** ** The ridged transform *)

Lemma ridged_value_fin (v : R) :
  ridged_value (Fin v) = Fin (1 - Rabs (2 * v - 1)).
Proof. reflexivity. Qed.

Lemma generate_ridged_noise_cell (nodes : nat) (G : Grid) (w h : nat)
  (F : Field) (y x : nat) :
  generate_ridged_noise nodes G w h = Ok F ->
  (y < h)%nat -> (x < w)%nat ->
  exists value,
    perlin_get G (lattice_coord x w nodes) (lattice_coord y h nodes) = Ok value
    /\ cell F y x = ridged_value value.
Proof.
  intros HF Hy Hx. unfold generate_ridged_noise in HF.
  destruct (for_each_inv _ _ [] HF) as [_ Hrow].
  specialize (Hrow y Hy).
  destruct (for_each_inv _ _ NaN Hrow) as [_ Hcell].
  specialize (Hcell x Hx). fold (cell F y x) in Hcell.
  destruct (perlin_get G (lattice_coord x w nodes) (lattice_coord y h nodes))
    as [value |]; [| discriminate].
  exists value. split; [reflexivity |]. now injection Hcell.
Qed.

(** C1, as the specification words it, fails: at [v = 0] the ridged
    transform is 0 (its minimum), not its maximum 1, so the extrema are
    not where the sentence puts them. *)
Lemma ridged_extrema_as_stated_fails :
  ridged_value (Fin 0) = Fin 0 /\
  ~ (forall v : R, 0 <= v <= 1 ->
       (ridged_value (Fin v) = Fin 1 <-> v = 0 \/ v = 1) /\
       (ridged_value (Fin v) = Fin 0 <-> v = 1 / 2)).
Proof.
  assert (H0 : ridged_value (Fin 0) = Fin 0).
  { rewrite ridged_value_fin. f_equal.
    replace (2 * 0 - 1) with (- (1)) by lra.
    rewrite Rabs_Ropp, Rabs_R1. lra. }
  split; [exact H0 |].
  intros H. destruct (H 0 ltac:(lra)) as [[_ Hmax] _].
  rewrite H0 in Hmax. specialize (Hmax (or_introl eq_refl)).
  apply Fin_inj in Hmax. lra.
Qed.

(** C1 (amended): for every [v] in [0,1] the ridged transform
    [1 - |2v - 1|] of [generate_ridged_noise] lies in [0,1]; it reaches its
    maximum 1 exactly when [v = 1/2] and its minimum 0 exactly when [v] is
    0 or 1. *)
Theorem ridged_extrema (v : R) :
  0 <= v <= 1 ->
  (exists r, ridged_value (Fin v) = Fin r /\ 0 <= r <= 1) /\
  (ridged_value (Fin v) = Fin 1 <-> v = 1 / 2) /\
  (ridged_value (Fin v) = Fin 0 <-> v = 0 \/ v = 1).
Proof.
  intros Hv. rewrite ridged_value_fin.
  assert (Habs : Rabs (2 * v - 1) = 2 * v - 1 /\ 1 / 2 <= v \/
                 Rabs (2 * v - 1) = 1 - 2 * v /\ v < 1 / 2).
  { destruct (Rle_lt_dec (1 / 2) v) as [Hge | Hlt].
    - left. split; [apply Rabs_right; lra | assumption].
    - right. split; [rewrite Rabs_left; lra | assumption]. }
  split; [| split].
  - eexists. split; [reflexivity |].
    destruct Habs as [[-> ?] | [-> ?]]; lra.
  - split.
    + intros H%Fin_inj. destruct Habs as [[Ha ?] | [Ha ?]]; rewrite Ha in H; lra.
    + intros ->. f_equal. replace (2 * (1 / 2) - 1) with 0 by lra.
      rewrite Rabs_R0. lra.
  - split.
    + intros H%Fin_inj. destruct Habs as [[Ha ?] | [Ha ?]]; rewrite Ha in H.
      * right. lra.
      * left. lra.
    + intros [-> | ->]; f_equal.
      * replace (2 * 0 - 1) with (- (1)) by lra.
        rewrite Rabs_Ropp, Rabs_R1. lra.
      * replace (2 * 1 - 1) with 1 by lra. rewrite Rabs_R1. lra.
Qed.

Lemma ridged_extrema_witness :
  (exists r, ridged_value (Fin (1 / 2)) = Fin r /\ 0 <= r <= 1) /\
  (ridged_value (Fin (1 / 2)) = Fin 1 <-> 1 / 2 = 1 / 2) /\
  (ridged_value (Fin (1 / 2)) = Fin 0 <-> 1 / 2 = 0 \/ 1 / 2 = 1).
Proof. apply (ridged_extrema (v := 1 / 2)). lra. Defined.

(** ** Masks *)

Lemma of_nat_pred (n : nat) : (of_nat n - Fin 1)%num = Fin (INR n - 1).
Proof. reflexivity. Qed.

Lemma vertical_gradient_cell (w h y x : nat) :
  (2 <= h)%nat -> (y < h)%nat -> (x < w)%nat ->
  cell (generate_vertical_gradient w h) y x = Fin (INR y / (INR h - 1)).
Proof.
  intros Hh Hy Hx. unfold generate_vertical_gradient.
  rewrite cell_tabulate by assumption.
  unfold of_nat at 1. rewrite of_nat_pred.
  apply ndiv_fin.
  apply le_INR in Hh. simpl in Hh. lra.
Qed.

(** C9, as stated, fails for [height = 1]: the only row is both the first
    and the last one, and its value is [0 / 0], which is NaN. *)
Lemma vertical_gradient_single_row_fails :
  fst (CreateNoiseMask MaskType.Vertical_gradient 1 1 None (initial_state 1))
  = Some [[NaN]] /\
  ~ (forall (w h : nat) (F : Field),
       (1 <= w)%nat -> (1 <= h)%nat ->
       fst (CreateNoiseMask MaskType.Vertical_gradient w h None
              (initial_state 1)) = Some F ->
       forall x, (x < w)%nat ->
         cell F 0 x = Fin 0 /\ cell F (h - 1) x = Fin 1).
Proof.
  assert (E : fst (CreateNoiseMask MaskType.Vertical_gradient 1 1 None
                     (initial_state 1)) = Some [[NaN]]).
  { cbn -[ndiv nsub of_nat]. rewrite of_nat_pred.
    unfold of_nat. cbn [INR]. replace (1 - 1) with 0 by lra.
    now rewrite ndiv_zero_zero. }
  split; [exact E |].
  intros H.
  destruct (H 1%nat 1%nat _ ltac:(lia) ltac:(lia) E 0%nat ltac:(lia))
    as [H0 _].
  discriminate H0.
Qed.

(** C9 (amended): for every width >= 1 and height >= 2, the
    VerticalGradient mask produced by [CreateNoiseMask] has [height] rows,
    each of them the constant [y / (height - 1)]; so its value is 0 at
    every cell with [y = 0] and 1 at every cell with [y = height - 1]. *)
Theorem vertical_gradient_ends {rng : Type} {RS : FastRandomBlocks rng}
  (w h : nat) (opt : option num) (s : State rng) :
  (1 <= w)%nat -> (2 <= h)%nat ->
  exists F,
    fst (CreateNoiseMask MaskType.Vertical_gradient w h opt s) = Some F /\
    length F = h /\
    (forall y x, (y < h)%nat -> (x < w)%nat ->
       cell F y x = Fin (INR y / (INR h - 1))) /\
    (forall x, (x < w)%nat ->
       cell F 0 x = Fin 0 /\ cell F (h - 1) x = Fin 1).
Proof.
  intros Hw Hh. exists (generate_vertical_gradient w h).
  split; [reflexivity |].
  split; [apply tabulate_length |].
  assert (Hpos : INR h - 1 <> 0).
  { apply le_INR in Hh. simpl in Hh. lra. }
  split.
  - intros y x Hy Hx. now apply vertical_gradient_cell.
  - intros x Hx. split.
    + rewrite vertical_gradient_cell by lia. f_equal. simpl. field. exact Hpos.
    + rewrite vertical_gradient_cell by lia. f_equal.
      rewrite minus_INR by lia. simpl. field. exact Hpos.
Qed.

Lemma vertical_gradient_ends_witness :
  exists F,
    fst (CreateNoiseMask MaskType.Vertical_gradient 3 2 None (initial_state 1))
    = Some F /\
    length F = 2%nat /\
    (forall y x, (y < 2)%nat -> (x < 3)%nat ->
       cell F y x = Fin (INR y / (INR 2 - 1))) /\
    (forall x, (x < 3)%nat ->
       cell F 0 x = Fin 0 /\ cell F (2 - 1) x = Fin 1).
Proof.
  apply (vertical_gradient_ends (w := 3) (h := 2) None (initial_state 1)); lia.
Defined.

(** C10: whatever the size, [CreateNoiseMask] called with a [maskType]
    that is none of the seven variants returns [undefined] (its [switch]
    has no [default] and nothing follows it), whereas [createNoiseMap]
    returns the empty array for a [noiseType] that is none of its five. *)
Theorem unknown_kind_results {rng : Type} {RS : FastRandomBlocks rng}
  (maskType noiseType : Z) (w h : nat) (opt : option num)
  (scale : option nat) (s : State rng) :
  (maskType < 0 \/ 6 < maskType)%Z ->
  (noiseType < 0 \/ 4 < noiseType)%Z ->
  fst (CreateNoiseMask maskType w h opt s) = None /\
  fst (createNoiseMap noiseType w h scale s) = Ok [].
Proof.
  intros Hm Hn. split.
  - unfold CreateNoiseMask, MaskType.Gradient, MaskType.Solid, MaskType.Island,
      MaskType.Edge_falloff, MaskType.Horizontal_gradient,
      MaskType.Vertical_gradient, MaskType.Checkerboard.
    repeat match goal with
           | |- context [(?a =? ?b)%Z] => destruct (Z.eqb_spec a b); [lia |]
           end.
    reflexivity.
  - unfold createNoiseMap, NoiseType.Perlin, NoiseType.Static,
      NoiseType.Ridged, NoiseType.Terrain, NoiseType.River.
    repeat match goal with
           | |- context [(?a =? ?b)%Z] => destruct (Z.eqb_spec a b); [lia |]
           end.
    reflexivity.
Qed.

Lemma unknown_kind_results_witness :
  fst (CreateNoiseMask 7 160 120 (Some (Fin 1)) (initial_state 1)) = None /\
  fst (createNoiseMap 5 160 120 (Some 4%nat) (initial_state 1)) = Ok [].
Proof.
  apply (unknown_kind_results (maskType := 7) (noiseType := 5)
           160 120 (Some (Fin 1)) (Some 4%nat) (initial_state 1)); lia.
Defined.

(** ** Field algebra *)

Lemma tabulate_rectangular (h w : nat) (f : nat -> nat -> num) :
  rectangular h w (tabulate h (fun y => tabulate w (f y))).
Proof.
  split; [apply tabulate_length |].
  apply Forall_forall. intros row Hin. unfold tabulate at 1 in Hin.
  apply in_map_iff in Hin. destruct Hin as [y [<- _]].
  apply tabulate_length.
Qed.

Lemma rectangular_first_row (h w : nat) (m : Field) :
  rectangular h w m -> (1 <= h)%nat ->
  exists row rest, m = row :: rest /\ length row = w.
Proof.
  intros [Hlen Hrows] Hh. destruct m as [| row rest]; simpl in Hlen; [lia |].
  exists row, rest. split; [reflexivity |]. now inversion Hrows.
Qed.

(** Inside the common region the call returns a field whose cells are the
    [switch] applied to the two cells read. *)
Lemma combineNoiseMaps_cell (a b : Field) (operation : Z) (y x : nat) :
  (y < Nat.min (length a) (length b))%nat ->
  (x < Nat.min (length (nth 0 a [])) (length (nth 0 b [])))%nat ->
  exists F,
    combineNoiseMaps a b operation = Ok F /\
    cell F y x = combine_cell operation (cell a y x) (cell b y x).
Proof.
  intros Hy Hx.
  destruct a as [| row1 a']; [simpl in Hy; lia |].
  destruct b as [| row2 b']; [simpl in Hy; lia |].
  eexists. split; [reflexivity |].
  simpl nth in Hx.
  now rewrite cell_tabulate.
Qed.

(** C6: for every pair of fields and every cell of the combined region,
    [combineNoiseMaps] with the Product operation returns
    [sqrt(a[y][x] * b[y][x])] at that cell: the square root of the
    product, not the product. *)
Theorem combine_product_cell (a b : Field) (y x : nat) :
  (y < Nat.min (length a) (length b))%nat ->
  (x < Nat.min (length (nth 0 a [])) (length (nth 0 b [])))%nat ->
  exists F,
    combineNoiseMaps a b CombineOptions.Product = Ok F /\
    cell F y x = Math_sqrt (cell a y x * cell b y x)%num.
Proof.
  intros Hy Hx.
  destruct (combineNoiseMaps_cell a b CombineOptions.Product Hy Hx)
    as [F [HF Hc]].
  exists F. split; [exact HF |]. exact Hc.
Qed.

Lemma combine_product_cell_witness :
  exists F,
    combineNoiseMaps [[Fin (1 / 4)]] [[Fin 1; Fin 0]] CombineOptions.Product
    = Ok F /\
    cell F 0 0 =
    Math_sqrt (cell [[Fin (1 / 4)]] 0 0 * cell [[Fin 1; Fin 0]] 0 0)%num.
Proof.
  apply (combine_product_cell [[Fin (1 / 4)]] [[Fin 1; Fin 0]]
           (y := 0) (x := 0)); simpl; lia.
Defined.

(** The product of 1/4 and 1 comes out as 1/2, where a multiplication
    would give 1/4; the older revision does multiply. *)
Lemma combine_product_example :
  combineNoiseMaps [[Fin (1 / 4)]] [[Fin 1]] CombineOptions.Product
  = Ok [[Fin (1 / 2)]] /\
  Legacy.combineNoiseMaps [[Fin (1 / 4)]] [[Fin 1]] 0 = Ok [[Fin (1 / 4)]].
Proof.
  split; cbn -[Rltb sqrt].
  - unfold Rltb. destruct (Rlt_dec (1 / 4 * 1) 0) as [Hlt | _]; [lra |].
    do 3 f_equal. f_equal.
    replace (1 / 4 * 1) with ((1 / 2) * (1 / 2)) by lra.
    apply sqrt_square. lra.
  - do 3 f_equal. f_equal. lra.
Qed.

(** C7: for two non-empty rectangular fields of [h1 x w1] and [h2 x w2]
    cells, [combineNoiseMaps] returns, whatever the operation and without
    an exception, a field of exactly [min h1 h2] rows and [min w1 w2]
    columns (the common top-left region); under Union every cell is the
    maximum of the two cells read, under Intersection their minimum. *)
Theorem combine_crops_and_selects (a b : Field) (h1 w1 h2 w2 : nat)
  (operation : Z) :
  rectangular h1 w1 a -> rectangular h2 w2 b ->
  (1 <= h1)%nat -> (1 <= h2)%nat ->
  exists F,
    combineNoiseMaps a b operation = Ok F /\
    rectangular (Nat.min h1 h2) (Nat.min w1 w2) F /\
    forall y x, (y < Nat.min h1 h2)%nat -> (x < Nat.min w1 w2)%nat ->
      (operation = CombineOptions.Union ->
       cell F y x = Math_max (cell a y x) (cell b y x)) /\
      (operation = CombineOptions.Intersection ->
       cell F y x = Math_min (cell a y x) (cell b y x)).
Proof.
  intros Ha Hb Hh1 Hh2.
  destruct (rectangular_first_row Ha Hh1) as [row1 [a' [-> Hw1]]].
  destruct (rectangular_first_row Hb Hh2) as [row2 [b' [-> Hw2]]].
  destruct Ha as [Hl1 _], Hb as [Hl2 _].
  eexists. split; [reflexivity |].
  rewrite Hl1, Hl2, Hw1, Hw2.
  split; [apply tabulate_rectangular |].
  intros y x Hy Hx. rewrite cell_tabulate by assumption.
  split; intros ->; reflexivity.
Qed.

Lemma combine_crops_and_selects_witness :
  exists F,
    combineNoiseMaps [[Fin 0; Fin 1]; [Fin 1; Fin 0]] [[Fin (1 / 2)]]
      CombineOptions.Union = Ok F /\
    rectangular (Nat.min 2 1) (Nat.min 2 1) F /\
    forall y x, (y < Nat.min 2 1)%nat -> (x < Nat.min 2 1)%nat ->
      (CombineOptions.Union = CombineOptions.Union ->
       cell F y x = Math_max (cell [[Fin 0; Fin 1]; [Fin 1; Fin 0]] y x)
                             (cell [[Fin (1 / 2)]] y x)) /\
      (CombineOptions.Union = CombineOptions.Intersection ->
       cell F y x = Math_min (cell [[Fin 0; Fin 1]; [Fin 1; Fin 0]] y x)
                             (cell [[Fin (1 / 2)]] y x)).
Proof.
  apply (@combine_crops_and_selects
           [[Fin 0; Fin 1]; [Fin 1; Fin 0]] [[Fin (1 / 2)]] 2 2 1 1
           CombineOptions.Union).
  - split; [reflexivity | repeat constructor].
  - split; [reflexivity | repeat constructor].
  - lia.
  - lia.
Defined.

(** C8: [combineNoiseMaps] with the Quotient operation validates nothing
    and throws nothing: for every pair of fields and every cell of the
    combined region it returns [a[y][x] / b[y][x]] as the division yields
    it.  A zero divisor is passed through, neither guarded nor replaced:
    the cell is then never a finite number, it is NaN where the dividend
    is 0 or NaN and an infinity for every other dividend. *)
Theorem combine_quotient_cell (a b : Field) (y x : nat) :
  (y < Nat.min (length a) (length b))%nat ->
  (x < Nat.min (length (nth 0 a [])) (length (nth 0 b [])))%nat ->
  exists F,
    combineNoiseMaps a b CombineOptions.Quotient = Ok F /\
    (cell b y x <> Fin 0 -> cell F y x = (cell a y x / cell b y x)%num) /\
    (cell b y x = Fin 0 ->
     (forall r, cell F y x <> Fin r) /\
     (cell a y x = Fin 0 \/ cell a y x = NaN -> cell F y x = NaN) /\
     (cell a y x <> Fin 0 -> cell a y x <> NaN ->
      cell F y x = PInf \/ cell F y x = NInf)).
Proof.
  intros Hy Hx.
  destruct (combineNoiseMaps_cell a b CombineOptions.Quotient Hy Hx)
    as [F [HF Hc]].
  exists F. split; [exact HF |].
  change (combine_cell CombineOptions.Quotient (cell a y x) (cell b y x))
    with (cell a y x / cell b y x)%num in Hc.
  split; [intros _; exact Hc |].
  intros Hb. rewrite Hc, Hb.
  destruct (cell a y x) as [r | | |].
  - destruct (Rtotal_order r 0) as [Hlt | [-> | Hgt]].
    + rewrite (ndiv_neg_zero Hlt). split; [discriminate |]. split.
      * intros [E | E]; [apply Fin_inj in E; lra | discriminate E].
      * intros _ _. now right.
    + rewrite ndiv_zero_zero. split; [discriminate |]. split.
      * reflexivity.
      * intros E. now destruct E.
    + rewrite (ndiv_pos_zero Hgt). split; [discriminate |]. split.
      * intros [E | E]; [apply Fin_inj in E; lra | discriminate E].
      * intros _ _. now left.
  - unfold ndiv. rewrite Rsign_zero. split; [discriminate |]. split.
    + intros [E | E]; discriminate E.
    + intros _ _. now left.
  - unfold ndiv. rewrite Rsign_zero. split; [discriminate |]. split.
    + intros [E | E]; discriminate E.
    + intros _ _. now right.
  - split; [discriminate |]. split.
    + reflexivity.
    + intros _ E. now destruct E.
Qed.

Lemma combine_quotient_cell_witness :
  exists F,
    combineNoiseMaps [[Fin 3; Fin 1]] [[Fin 2; Fin 0]]
      CombineOptions.Quotient = Ok F /\
    (cell [[Fin 2; Fin 0]] 0 1 <> Fin 0 ->
     cell F 0 1
     = (cell [[Fin 3; Fin 1]] 0 1 / cell [[Fin 2; Fin 0]] 0 1)%num) /\
    (cell [[Fin 2; Fin 0]] 0 1 = Fin 0 ->
     (forall r, cell F 0 1 <> Fin r) /\
     (cell [[Fin 3; Fin 1]] 0 1 = Fin 0 \/ cell [[Fin 3; Fin 1]] 0 1 = NaN ->
      cell F 0 1 = NaN) /\
     (cell [[Fin 3; Fin 1]] 0 1 <> Fin 0 ->
      cell [[Fin 3; Fin 1]] 0 1 <> NaN ->
      cell F 0 1 = PInf \/ cell F 0 1 = NInf)).
Proof.
  apply (combine_quotient_cell [[Fin 3; Fin 1]] [[Fin 2; Fin 0]]
           (y := 0) (x := 1)); simpl; lia.
Defined.

(** Dividing cell-wise: [1 / 2], and [0 / 0], which is NaN. *)
Lemma combine_quotient_example :
  combineNoiseMaps [[Fin 1; Fin 0]] [[Fin 2; Fin 0]] CombineOptions.Quotient
  = Ok [[Fin (1 / 2); NaN]].
Proof.
  cbn -[ndiv]. rewrite ndiv_zero_zero, ndiv_fin by lra. reflexivity.
Qed.

(** ** Determinism *)

Section Determinism.

Context {rng : Type} {RS : FastRandomBlocks rng}.

(** A call reads the generator and nothing else of the state it starts
    in: [nodes] and [gradients] are overwritten before they are read. *)
Lemma createNoiseMap_reads_rng_only (noiseType : Z) (w h : nat)
  (scale : option nat) (s1 s2 : State rng) :
  currentRng s1 = currentRng s2 ->
  fst (createNoiseMap noiseType w h scale s1)
  = fst (createNoiseMap noiseType w h scale s2) /\
  currentRng (snd (createNoiseMap noiseType w h scale s1))
  = currentRng (snd (createNoiseMap noiseType w h scale s2)).
Proof.
  intros Hrng.
  assert (Hg : ensure_rng s1 = ensure_rng s2).
  { unfold ensure_rng. now rewrite Hrng. }
  unfold createNoiseMap, coherent. rewrite Hg.
  destruct (initialize_gradients (scale_or_default scale) (ensure_rng s2))
    as [G g'].
  destruct (generate_static_noise w h (ensure_rng s2)) as [F g''].
  repeat match goal with
         | |- context [if ?c then _ else _] => destruct c
         end; split; reflexivity.
Qed.

(** C5: for every seed, kind, width, height and scale, two calls of
    [createNoiseMap], each made right after [setSeed] installed a
    generator freshly created from that seed, return the same result,
    cell for cell, whatever the rest of the state was (for instance what
    the first call left behind). *)
Theorem createNoiseMap_same_seed (seed noiseType : Z) (w h : nat)
  (scale : option nat) (s s' : State rng) :
  fst (createNoiseMap noiseType w h scale (setSeed (createRNG seed) s))
  = fst (createNoiseMap noiseType w h scale (setSeed (createRNG seed) s')).
Proof.
  unfold createNoiseMap, coherent, setSeed, ensure_rng. cbn [currentRng].
  destruct (initialize_gradients (scale_or_default scale) (createRNG seed))
    as [G g'].
  destruct (generate_static_noise w h (createRNG seed)) as [F g''].
  repeat match goal with
         | |- context [if ?c then _ else _] => destruct c
         end; reflexivity.
Qed.

End Determinism.

(** ** Gradient grids *)

Lemma lookupZ_in_range {A : Type} (l : list A) (i : Z) :
  (0 <= i < Z.of_nat (length l))%Z ->
  exists a, lookupZ l i = Some a /\ In a l.
Proof.
  intros Hi. unfold lookupZ.
  destruct (Z.ltb_spec i 0) as [Hneg | _]; [lia |].
  destruct (nth_error l (Z.to_nat i)) as [a |] eqn:Ha.
  - exists a. split; [reflexivity |]. now apply nth_error_In in Ha.
  - apply nth_error_None in Ha. lia.
Qed.

Lemma lookupZ_outside {A : Type} (l : list A) (i : Z) :
  (i < 0 \/ Z.of_nat (length l) <= i)%Z -> lookupZ l i = None.
Proof.
  intros Hi. unfold lookupZ.
  destruct (Z.ltb_spec i 0) as [Hneg | Hpos]; [reflexivity |].
  apply nth_error_None. lia.
Qed.

Lemma grid_lookup (n : nat) (G : Grid) (vx vy : Z) :
  square_grid n G ->
  (0 <= vy < Z.of_nat n)%Z -> (0 <= vx < Z.of_nat n)%Z ->
  exists row g,
    lookupZ G vy = Some row /\ lookupZ row vx = Some g /\
    In row G /\ In g row.
Proof.
  intros [Hlen Hrows] Hvy Hvx.
  destruct (@lookupZ_in_range _ G vy) as [row [Hrow Hin]]; [lia |].
  assert (Hrl : length row = n).
  { rewrite Forall_forall in Hrows. now apply Hrows. }
  destruct (@lookupZ_in_range _ row vx) as [g [Hg Hing]]; [lia |].
  now exists row, g.
Qed.

Lemma unit_grid_lookup (G : Grid) (row : list vec) (g : vec) :
  unit_grid G -> In row G -> In g row -> unit_vec g.
Proof.
  intros HG Hrow Hg. unfold unit_grid in HG.
  rewrite Forall_forall in HG. specialize (HG row Hrow).
  rewrite Forall_forall in HG. now apply HG.
Qed.

Section Gradients.

Context {rng : Type} {RS : FastRandomBlocks rng}.

Lemma seeded_random_fin (g : rng) :
  fst (seeded_random g) = Fin (IZR (fst (nextNumber g)) / 65535).
Proof.
  unfold seeded_random. destruct (nextNumber g) as [n g']. simpl fst.
  unfold of_Z. apply ndiv_fin. lra.
Qed.

Lemma random_unit_vector_unit (g : rng) : unit_vec (fst (random_unit_vector g)).
Proof.
  unfold random_unit_vector.
  pose proof (seeded_random_fin g) as Hr.
  destruct (seeded_random g) as [r g']. simpl in Hr. subst r. simpl fst.
  eexists _, _. split; [reflexivity |].
  match goal with |- cos ?t * _ + _ = 1 => pose proof (sin2_cos2 t) as H end.
  unfold Rsqr in H. lra.
Qed.

(** What [initialize_gradients] stores: [nodes] rows of [nodes] unit
    vectors. *)
Lemma initialize_gradients_square (n : nat) (g : rng) :
  square_grid n (fst (initialize_gradients n g)).
Proof.
  unfold initialize_gradients, for_state. split.
  - apply for_state_from_length.
  - apply for_state_from_Forall. intros k t. apply for_state_from_length.
Qed.

Lemma initialize_gradients_unit (n : nat) (g : rng) :
  unit_grid (fst (initialize_gradients n g)).
Proof.
  unfold initialize_gradients, for_state, unit_grid.
  apply for_state_from_Forall. intros k t.
  apply for_state_from_Forall. intros j u. apply random_unit_vector_unit.
Qed.

End Gradients.

(** ** Coherent noise in range *)

Lemma dot_prod_grid_in_range (n : nat) (G : Grid) (x y : num) (vx vy : Z) :
  square_grid n G ->
  (0 <= vx < Z.of_nat n)%Z -> (0 <= vy < Z.of_nat n)%Z ->
  exists g, in_grid G g /\
            dot_prod_grid G x y vx vy = Ok (dot_with g x y vx vy).
Proof.
  intros HG Hvx Hvy.
  destruct (grid_lookup HG Hvy Hvx) as [row [g [Hrow [Hg [Hin Hing]]]]].
  exists g. split; [now exists row |].
  unfold dot_prod_grid. now rewrite Hrow, Hg.
Qed.

(** A read outside the grid throws. *)
Lemma dot_prod_grid_outside (n : nat) (G : Grid) (x y : num) (vx vy : Z) :
  square_grid n G ->
  (vx < 0 \/ Z.of_nat n <= vx \/ vy < 0 \/ Z.of_nat n <= vy)%Z ->
  dot_prod_grid G x y vx vy = TypeError.
Proof.
  intros [Hlen Hrows] Hout. unfold dot_prod_grid.
  destruct (lookupZ G vy) as [row |] eqn:Hrow; [| reflexivity].
  assert (Hin : In row G).
  { unfold lookupZ in Hrow. destruct (vy <? 0)%Z; [discriminate |].
    now apply nth_error_In in Hrow. }
  assert (Hvy : (0 <= vy < Z.of_nat n)%Z).
  { destruct (Z_lt_ge_dec vy 0) as [Hneg | Hpos].
    - rewrite lookupZ_outside in Hrow by lia. discriminate.
    - destruct (Z_lt_ge_dec vy (Z.of_nat n)) as [Hlt | Hge]; [lia |].
      rewrite lookupZ_outside in Hrow by lia. discriminate. }
  rewrite Forall_forall in Hrows. specialize (Hrows row Hin).
  rewrite lookupZ_outside by lia. reflexivity.
Qed.

Lemma perlin_blend_in_range (n : nat) (G : Grid) (xr yr : R) :
  square_grid n G ->
  (0 <= Int_part xr)%Z -> (Int_part xr + 1 < Z.of_nat n)%Z ->
  (0 <= Int_part yr)%Z -> (Int_part yr + 1 < Z.of_nat n)%Z ->
  let x := Fin xr in
  let y := Fin yr in
  let x0 := Int_part xr in
  let y0 := Int_part yr in
  let sx := (x - of_Z x0)%num in
  let sy := (y - of_Z y0)%num in
  exists g00 g10 g01 g11,
    in_grid G g00 /\ in_grid G g10 /\ in_grid G g01 /\ in_grid G g11 /\
    perlin_blend G x y =
    Ok (interp sy
          (interp sx (dot_with g00 x y x0 y0) (dot_with g10 x y (x0 + 1) y0))
          (interp sx (dot_with g01 x y x0 (y0 + 1))
                     (dot_with g11 x y (x0 + 1) (y0 + 1)))).
Proof.
  intros HG Hx0 Hx1 Hy0 Hy1 x y x0 y0 sx sy.
  subst x y x0 y0 sx sy.
  destruct (@dot_prod_grid_in_range n G (Fin xr) (Fin yr)
              (Int_part xr) (Int_part yr) HG)
    as [g00 [Hin00 E00]]; [lia | lia |].
  destruct (@dot_prod_grid_in_range n G (Fin xr) (Fin yr)
              (Int_part xr + 1) (Int_part yr) HG)
    as [g10 [Hin10 E10]]; [lia | lia |].
  destruct (@dot_prod_grid_in_range n G (Fin xr) (Fin yr)
              (Int_part xr) (Int_part yr + 1) HG)
    as [g01 [Hin01 E01]]; [lia | lia |].
  destruct (@dot_prod_grid_in_range n G (Fin xr) (Fin yr)
              (Int_part xr + 1) (Int_part yr + 1) HG)
    as [g11 [Hin11 E11]]; [lia | lia |].
  exists g00, g10, g01, g11. repeat (split; [assumption |]).
  cbv beta iota zeta delta [perlin_blend].
  rewrite E00, E10, E01, E11. reflexivity.
Qed.

Lemma perlin_get_in_range (n : nat) (G : Grid) (xr yr : R) :
  square_grid n G ->
  (0 <= Int_part xr)%Z -> (Int_part xr + 1 < Z.of_nat n)%Z ->
  (0 <= Int_part yr)%Z -> (Int_part yr + 1 < Z.of_nat n)%Z ->
  exists v, perlin_get G (Fin xr) (Fin yr) = Ok v.
Proof.
  intros HG Hx0 Hx1 Hy0 Hy1.
  destruct (perlin_blend_in_range xr yr HG Hx0 Hx1 Hy0 Hy1)
    as [g00 [g10 [g01 [g11 [_ [_ [_ [_ E]]]]]]]].
  unfold perlin_get. rewrite E. eexists. reflexivity.
Qed.

(** The coordinate the generators sample for pixel [i] of [size]: finite,
    not negative, and below [nodes - 1]. *)
Lemma lattice_coord_range (i size nodes : nat) :
  (i < size)%nat -> (1 <= nodes)%nat ->
  exists r,
    lattice_coord i size nodes = Fin r /\
    r = INR i / INR size * (INR nodes - 1) /\
    (0 <= Int_part r)%Z /\ (Int_part r + 1 < Z.of_nat nodes + 1)%Z /\
    ((2 <= nodes)%nat -> (Int_part r + 1 < Z.of_nat nodes)%Z).
Proof.
  intros Hi Hn.
  assert (Hsize : 0 < INR size) by (apply lt_0_INR; lia).
  assert (Hi0 : 0 <= INR i) by apply pos_INR.
  assert (HiR : INR i < INR size) by now apply lt_INR.
  assert (HnR : 1 <= INR nodes) by (apply le_INR in Hn; simpl in Hn; lra).
  set (r := INR i / INR size * (INR nodes - 1)).
  assert (Hq : 0 <= INR i / INR size < 1).
  { split.
    - apply Rmult_le_pos; [lra |]. left. now apply Rinv_0_lt_compat.
    - apply (Rmult_lt_reg_r (INR size)); [assumption |].
      unfold Rdiv. rewrite Rmult_assoc, Rinv_l by lra. lra. }
  assert (Hr : 0 <= r <= INR nodes - 1) by (unfold r; nra).
  assert (Hr2 : (2 <= nodes)%nat -> r < INR nodes - 1).
  { intros H2. apply le_INR in H2. simpl in H2. unfold r. nra. }
  exists r. split.
  - unfold lattice_coord, of_nat. rewrite ndiv_fin by lra. reflexivity.
  - split; [reflexivity |].
    destruct (base_Int_part r) as [Hlo Hhi].
    assert (Hz : (-1 < Int_part r)%Z) by (apply lt_IZR; lra).
    split; [lia | split].
    + apply lt_IZR. rewrite !plus_IZR, <- INR_IZR_INZ. lra.
    + intros H2. specialize (Hr2 H2).
      apply lt_IZR. rewrite plus_IZR, <- INR_IZR_INZ. lra.
Qed.

(** Two nested loops whose every cell evaluates return a rectangular field
    holding those values. *)
Lemma for_each_from_total {A : Type} (body : nat -> result A) (n i : nat) :
  (forall k, (i <= k < i + n)%nat -> exists a, body k = Ok a) ->
  exists l, for_each_from i n body = Ok l.
Proof.
  revert i. induction n as [| n IH]; intros i H; simpl.
  - now exists [].
  - destruct (H i ltac:(lia)) as [a ->].
    destruct (IH (S i)) as [l ->].
    + intros k Hk. apply H. lia.
    + now exists (a :: l).
Qed.

Lemma for_each_grid (body : nat -> nat -> result num) (w h : nat) :
  (forall y x, (y < h)%nat -> (x < w)%nat -> exists v, body y x = Ok v) ->
  exists F,
    for_each h (fun y => for_each w (body y)) = Ok F /\
    rectangular h w F /\
    forall y x, (y < h)%nat -> (x < w)%nat -> body y x = Ok (cell F y x).
Proof.
  intros Hbody.
  destruct (@for_each_from_total _ (fun y => for_each w (body y)) h 0)
    as [F HF].
  { intros y Hy. apply for_each_from_total. intros x Hx.
    apply Hbody; lia. }
  exists F. split; [exact HF |].
  destruct (for_each_inv _ _ [] HF) as [Hlen Hrows].
  split; [split; [exact Hlen |] |].
  - apply Forall_forall. intros row Hin.
    destruct (In_nth _ _ [] Hin) as [y [Hy <-]].
    rewrite Hlen in Hy.
    now destruct (for_each_inv _ _ NaN (Hrows y Hy)) as [Hl _].
  - intros y x Hy Hx.
    destruct (for_each_inv _ _ NaN (Hrows y Hy)) as [_ Hc].
    now apply Hc.
Qed.

Section InRange.

Variables (n w h : nat) (G : Grid).
Hypothesis Hn : (2 <= n)%nat.
Hypothesis HG : square_grid n G.

(** Every sample of a generator evaluates. *)
Lemma sample_evaluates (y x : nat) :
  (y < h)%nat -> (x < w)%nat ->
  exists v, perlin_get G (lattice_coord x w n) (lattice_coord y h n) = Ok v.
Proof.
  intros Hy Hx.
  destruct (@lattice_coord_range x w n Hx ltac:(lia))
    as [xr [-> [_ [Hx0 [_ Hx1]]]]].
  destruct (@lattice_coord_range y h n Hy ltac:(lia))
    as [yr [-> [_ [Hy0 [_ Hy1]]]]].
  apply perlin_get_in_range with n; auto.
Qed.

Lemma generate_perlin_noise_ok :
  exists F, generate_perlin_noise n G w h = Ok F /\ rectangular h w F.
Proof.
  destruct (@for_each_grid
              (fun y x => perlin_get G (lattice_coord x w n)
                                       (lattice_coord y h n)) w h)
    as [F [HF [Hrect _]]].
  - intros y x Hy Hx. now apply sample_evaluates.
  - now exists F.
Qed.

Lemma generate_ridged_noise_ok :
  exists F, generate_ridged_noise n G w h = Ok F /\ rectangular h w F.
Proof.
  destruct (@for_each_grid
              (fun y x =>
                 match perlin_get G (lattice_coord x w n)
                                    (lattice_coord y h n) with
                 | TypeError => TypeError
                 | Ok value => Ok (ridged_value value)
                 end) w h)
    as [F [HF [Hrect _]]].
  - intros y x Hy Hx. destruct (sample_evaluates Hy Hx) as [v ->].
    now eexists.
  - now exists F.
Qed.

Lemma generate_terrain_noise_ok :
  exists F, generate_terrain_noise n G w h = Ok F /\ rectangular h w F.
Proof.
  destruct (@for_each_grid
              (fun y x =>
                 match perlin_get G (lattice_coord x w n)
                                    (lattice_coord y h n) with
                 | TypeError => TypeError
                 | Ok value => Ok (Math_pow_1_5 value)
                 end) w h)
    as [F [HF [Hrect _]]].
  - intros y x Hy Hx. destruct (sample_evaluates Hy Hx) as [v ->].
    now eexists.
  - now exists F.
Qed.

Lemma generate_river_noise_ok :
  exists F, generate_river_noise n G w h = Ok F /\ rectangular h w F.
Proof.
  unfold generate_river_noise.
  destruct generate_ridged_noise_ok as [ridged [-> [Hlen _]]].
  destruct (@for_each_grid
              (fun y x =>
                 match nth_error ridged y with
                 | None => TypeError
                 | Some row => Ok (Fin 1 - nth x row NaN)%num
                 end) w h)
    as [F [HF [Hrect _]]].
  - intros y x Hy Hx.
    destruct (nth_error ridged y) as [row |] eqn:Hrow; [now eexists |].
    apply nth_error_None in Hrow. lia.
  - now exists F.
Qed.

End InRange.

Section Sampling.

Context {rng : Type} {RS : FastRandomBlocks rng}.

Lemma coherent_ok (generate : nat -> Grid -> nat -> nat -> result Field)
  (w h scale : nat) (s : State rng) :
  (2 <= scale)%nat ->
  (forall G, square_grid scale G ->
     exists F, generate scale G w h = Ok F /\ rectangular h w F) ->
  let r := coherent generate w h (Some scale) s in
  nodes (snd r) = scale /\
  square_grid scale (gradients (snd r)) /\
  exists F, fst r = Ok F /\ rectangular h w F.
Proof.
  intros Hs Hgen. unfold coherent.
  assert (Hd : scale_or_default (Some scale) = scale).
  { destruct scale; [lia | reflexivity]. }
  rewrite Hd.
  pose proof (initialize_gradients_square scale (ensure_rng s)) as Hsq.
  destruct (initialize_gradients scale (ensure_rng s)) as [G g'].
  simpl in *. repeat split; try apply Hsq. now apply Hgen.
Qed.

(** C3: for every width >= 1, height >= 1 and scale >= 2, a call of
    [createNoiseMap] with kind Perlin, Ridged, Terrain or River sets
    [nodes] to [scale], builds a [nodes] x [nodes] gradient grid and
    returns a field without an exception; every coordinate
    [(x / width * (nodes - 1), y / height * (nodes - 1))] it samples, for
    [0 <= x < width] and [0 <= y < height], has a floor [x0], [y0] with
    [0 <= x0], [x0 + 1 < nodes], [0 <= y0], [y0 + 1 < nodes], and the four
    reads [gradients[vert_y][vert_x]] around it all hit the grid. *)
Theorem createNoiseMap_samples_in_range (noiseType : Z) (w h scale : nat)
  (s : State rng) :
  (1 <= w)%nat -> (1 <= h)%nat -> (2 <= scale)%nat ->
  In noiseType coherent_kinds ->
  let r := createNoiseMap noiseType w h (Some scale) s in
  nodes (snd r) = scale /\
  square_grid scale (gradients (snd r)) /\
  (exists F, fst r = Ok F /\ rectangular h w F) /\
  forall x y, (x < w)%nat -> (y < h)%nat ->
    exists x0 y0 : Z,
      Math_floor (lattice_coord x w scale) = of_Z x0 /\
      Math_floor (lattice_coord y h scale) = of_Z y0 /\
      (0 <= x0 /\ x0 + 1 < Z.of_nat scale)%Z /\
      (0 <= y0 /\ y0 + 1 < Z.of_nat scale)%Z /\
      forall vx vy, (vx = x0 \/ vx = x0 + 1)%Z -> (vy = y0 \/ vy = y0 + 1)%Z ->
        exists d,
          dot_prod_grid (gradients (snd r)) (lattice_coord x w scale)
            (lattice_coord y h scale) vx vy = Ok d.
Proof.
  intros Hw Hh Hs Hkind r.
  assert (Hr : nodes (snd r) = scale /\
               square_grid scale (gradients (snd r)) /\
               exists F, fst r = Ok F /\ rectangular h w F).
  { subst r. unfold createNoiseMap.
    destruct Hkind as [<- | [<- | [<- | [<- | []]]]]; simpl Z.eqb; cbv iota;
      apply coherent_ok; try assumption; intros G HG.
    - now apply generate_perlin_noise_ok.
    - now apply generate_ridged_noise_ok.
    - now apply generate_terrain_noise_ok.
    - now apply generate_river_noise_ok. }
  destruct Hr as [Hnodes [Hsq HF]].
  repeat (split; [assumption |]).
  intros x y Hx Hy.
  destruct (@lattice_coord_range x w scale Hx ltac:(lia))
    as [xr [Ex [_ [Hx0 [_ Hx1]]]]].
  destruct (@lattice_coord_range y h scale Hy ltac:(lia))
    as [yr [Ey [_ [Hy0 [_ Hy1]]]]].
  specialize (Hx1 Hs). specialize (Hy1 Hs).
  exists (Int_part xr), (Int_part yr). rewrite Ex, Ey.
  split; [reflexivity |]. split; [reflexivity |].
  split; [now split |]. split; [now split |].
  intros vx vy Hvx Hvy.
  destruct (@dot_prod_grid_in_range scale (gradients (snd r))
              (Fin xr) (Fin yr) vx vy Hsq) as [g [_ E]]; [lia | lia |].
  eexists. exact E.
Qed.

End Sampling.

Lemma createNoiseMap_samples_in_range_witness :
  let r := createNoiseMap NoiseType.River 3 2 (Some 2%nat) (initial_state 1) in
  nodes (snd r) = 2%nat /\
  square_grid 2 (gradients (snd r)) /\
  (exists F, fst r = Ok F /\ rectangular 2 3 F) /\
  forall x y, (x < 3)%nat -> (y < 2)%nat ->
    exists x0 y0 : Z,
      Math_floor (lattice_coord x 3 2) = of_Z x0 /\
      Math_floor (lattice_coord y 2 2) = of_Z y0 /\
      (0 <= x0 /\ x0 + 1 < Z.of_nat 2)%Z /\
      (0 <= y0 /\ y0 + 1 < Z.of_nat 2)%Z /\
      forall vx vy, (vx = x0 \/ vx = x0 + 1)%Z -> (vy = y0 \/ vy = y0 + 1)%Z ->
        exists d,
          dot_prod_grid (gradients (snd r)) (lattice_coord x 3 2)
            (lattice_coord y 2 2) vx vy = Ok d.
Proof.
  apply (@createNoiseMap_samples_in_range Z LCG NoiseType.River 3 2 2
           (initial_state 1)); try lia.
  unfold coherent_kinds. simpl. tauto.
Defined.

(** ** The range of coherent noise *)

Lemma smootherstep_fin (t : R) : smootherstep (Fin t) = Fin (smooth t).
Proof. reflexivity. Qed.

Lemma interp_fin (t a b : R) :
  interp (Fin t) (Fin a) (Fin b) = Fin (a + smooth t * (b - a)).
Proof. reflexivity. Qed.

Lemma dot_with_fin (gx gy xr yr : R) (vx vy : Z) :
  dot_with (mkvec (Fin gx) (Fin gy)) (Fin xr) (Fin yr) vx vy
  = Fin ((xr - IZR vx) * gx + (yr - IZR vy) * gy).
Proof. reflexivity. Qed.

Lemma smooth_range (t : R) : 0 <= t <= 1 -> 0 <= smooth t <= 1.
Proof.
  intros Ht. unfold smooth. split.
  - replace (6 * t ^ 5 - 15 * t ^ 4 + 10 * t ^ 3)
      with (t ^ 3 * (6 * (t - 5 / 4) ^ 2 + 5 / 8)) by field.
    apply Rmult_le_pos; [apply pow_le; lra |].
    pose proof (pow2_ge_0 (t - 5 / 4)). lra.
  - assert (H : 0 <= (1 - t) ^ 3 * (6 * t ^ 2 + 3 * t + 1)).
    { apply Rmult_le_pos; [apply pow_le; lra |].
      pose proof (pow2_ge_0 t). lra. }
    replace ((1 - t) ^ 3 * (6 * t ^ 2 + 3 * t + 1))
      with (1 - (6 * t ^ 5 - 15 * t ^ 4 + 10 * t ^ 3)) in H by ring.
    lra.
Qed.

(** The weighted distance to the two ends of a cell never exceeds 1/2. *)
Lemma smooth_fold (t : R) :
  0 <= t <= 1 -> (1 - smooth t) * t + smooth t * (1 - t) <= 1 / 2.
Proof.
  intros Ht. unfold smooth.
  assert (HQ : 0 <= 6 * (t * (1 - t)) ^ 2 + 2 * (t * (1 - t)) + 1).
  { assert (0 <= t * (1 - t)) by (apply Rmult_le_pos; lra).
    pose proof (pow2_ge_0 (t * (1 - t))). lra. }
  assert (H : 0 <= 2 * (t - 1 / 2) ^ 2
                   * (6 * (t * (1 - t)) ^ 2 + 2 * (t * (1 - t)) + 1)).
  { apply Rmult_le_pos; [| exact HQ].
    pose proof (pow2_ge_0 (t - 1 / 2)). lra. }
  replace (2 * (t - 1 / 2) ^ 2
           * (6 * (t * (1 - t)) ^ 2 + 2 * (t * (1 - t)) + 1))
    with (1 / 2 - ((1 - (6 * t ^ 5 - 15 * t ^ 4 + 10 * t ^ 3)) * t
                   + (6 * t ^ 5 - 15 * t ^ 4 + 10 * t ^ 3) * (1 - t)))
    in H by field.
  lra.
Qed.

(** A displacement against a unit vector. *)
Lemma dot_bound (gx gy dx dy a b : R) :
  gx * gx + gy * gy = 1 ->
  - a <= dx <= a -> - b <= dy <= b ->
  - (a + b) <= dx * gx + dy * gy <= a + b.
Proof.
  intros Hg Hdx Hdy.
  assert (Hgx : -1 <= gx <= 1) by nra.
  assert (Hgy : -1 <= gy <= 1) by nra.
  assert (- a <= dx * gx <= a) by nra.
  assert (- b <= dy * gy <= b) by nra.
  lra.
Qed.

(** The blend of four corner values, each bounded by the 1-norm of its
    displacement, stays within [-1, 1]. *)
Lemma blend_bound (sx sy n00 n10 n01 n11 : R) :
  0 <= sx <= 1 -> 0 <= sy <= 1 ->
  - (sx + sy) <= n00 <= sx + sy ->
  - ((1 - sx) + sy) <= n10 <= (1 - sx) + sy ->
  - (sx + (1 - sy)) <= n01 <= sx + (1 - sy) ->
  - ((1 - sx) + (1 - sy)) <= n11 <= (1 - sx) + (1 - sy) ->
  let ix0 := n00 + smooth sx * (n10 - n00) in
  let ix1 := n01 + smooth sx * (n11 - n01) in
  -1 <= ix0 + smooth sy * (ix1 - ix0) <= 1.
Proof.
  intros Hsx Hsy H00 H10 H01 H11 ix0 ix1. subst ix0 ix1.
  pose proof (smooth_range Hsx) as Hu. pose proof (smooth_range Hsy) as Hv.
  pose proof (smooth_fold Hsx) as Hfx. pose proof (smooth_fold Hsy) as Hfy.
  set (u := smooth sx) in *. set (v := smooth sy) in *.
  assert (W00 : 0 <= (1 - v) * (1 - u)) by (apply Rmult_le_pos; lra).
  assert (W10 : 0 <= (1 - v) * u) by (apply Rmult_le_pos; lra).
  assert (W01 : 0 <= v * (1 - u)) by (apply Rmult_le_pos; lra).
  assert (W11 : 0 <= v * u) by (apply Rmult_le_pos; lra).
  set (w00 := (1 - v) * (1 - u)) in *. set (w10 := (1 - v) * u) in *.
  set (w01 := v * (1 - u)) in *. set (w11 := v * u) in *.
  assert (E : n00 + u * (n10 - n00)
              + v * (n01 + u * (n11 - n01) - (n00 + u * (n10 - n00)))
              = w00 * n00 + w10 * n10 + w01 * n01 + w11 * n11).
  { unfold w00, w10, w01, w11. ring. }
  rewrite E.
  assert (S : w00 * (sx + sy) + w10 * ((1 - sx) + sy)
              + w01 * (sx + (1 - sy)) + w11 * ((1 - sx) + (1 - sy))
              = ((1 - u) * sx + u * (1 - sx))
                + ((1 - v) * sy + v * (1 - sy))).
  { unfold w00, w10, w01, w11. ring. }
  assert (B00 : - (w00 * (sx + sy)) <= w00 * n00 <= w00 * (sx + sy)) by nra.
  assert (B10 : - (w10 * ((1 - sx) + sy)) <= w10 * n10
                <= w10 * ((1 - sx) + sy)) by nra.
  assert (B01 : - (w01 * (sx + (1 - sy))) <= w01 * n01
                <= w01 * (sx + (1 - sy))) by nra.
  assert (B11 : - (w11 * ((1 - sx) + (1 - sy))) <= w11 * n11
                <= w11 * ((1 - sx) + (1 - sy))) by nra.
  lra.
Qed.

Lemma in_grid_unit (G : Grid) (g : vec) :
  unit_grid G -> in_grid G g -> unit_vec g.
Proof. intros HG [row [Hrow Hg]]. now apply unit_grid_lookup with G row. Qed.

(** With the four lattice points inside a grid of unit vectors the blend
    is a real number in [-1, 1]. *)
Lemma perlin_blend_bounded (n : nat) (G : Grid) (xr yr : R) :
  square_grid n G -> unit_grid G ->
  (0 <= Int_part xr)%Z -> (Int_part xr + 1 < Z.of_nat n)%Z ->
  (0 <= Int_part yr)%Z -> (Int_part yr + 1 < Z.of_nat n)%Z ->
  exists b, perlin_blend G (Fin xr) (Fin yr) = Ok (Fin b) /\ -1 <= b <= 1.
Proof.
  intros HG HU Hx0 Hx1 Hy0 Hy1.
  destruct (perlin_blend_in_range xr yr HG Hx0 Hx1 Hy0 Hy1)
    as [g00 [g10 [g01 [g11 [I00 [I10 [I01 [I11 E]]]]]]]].
  destruct (in_grid_unit HU I00) as [ax [ay [-> Ua]]].
  destruct (in_grid_unit HU I10) as [bx [bY [-> Ub]]].
  destruct (in_grid_unit HU I01) as [cx [cy [-> Uc]]].
  destruct (in_grid_unit HU I11) as [dx [dy [-> Ud]]].
  rewrite E. rewrite !dot_with_fin.
  change (Fin xr - of_Z (Int_part xr))%num with (Fin (xr - IZR (Int_part xr))).
  change (Fin yr - of_Z (Int_part yr))%num with (Fin (yr - IZR (Int_part yr))).
  rewrite !interp_fin. eexists. split; [reflexivity |].
  destruct (base_Int_part xr) as [Hxl Hxh].
  destruct (base_Int_part yr) as [Hyl Hyh].
  rewrite !plus_IZR.
  set (sx := xr - IZR (Int_part xr)). set (sy := yr - IZR (Int_part yr)).
  replace (xr - (IZR (Int_part xr) + 1)) with (sx - 1) by (unfold sx; ring).
  replace (yr - (IZR (Int_part yr) + 1)) with (sy - 1) by (unfold sy; ring).
  assert (Hsx : 0 <= sx <= 1) by (unfold sx; lra).
  assert (Hsy : 0 <= sy <= 1) by (unfold sy; lra).
  apply blend_bound; try assumption.
  - apply dot_bound; [assumption | lra | lra].
  - apply dot_bound; [assumption | lra | lra].
  - apply dot_bound; [assumption | lra | lra].
  - apply dot_bound; [assumption | lra | lra].
Qed.

(** Whatever [dot_prod_grid] returns, it read a vector of the grid. *)
Lemma dot_prod_grid_returns (n : nat) (G : Grid) (x y d : num) (vx vy : Z) :
  square_grid n G ->
  dot_prod_grid G x y vx vy = Ok d ->
  (0 <= vx < Z.of_nat n)%Z /\ (0 <= vy < Z.of_nat n)%Z.
Proof.
  intros HG E.
  destruct (Z_lt_ge_dec vx 0); [| destruct (Z_lt_ge_dec vx (Z.of_nat n));
    [destruct (Z_lt_ge_dec vy 0); [| destruct (Z_lt_ge_dec vy (Z.of_nat n));
      [lia |]] |]];
    rewrite (@dot_prod_grid_outside n G) in E by (assumption || lia);
    discriminate.
Qed.

(** So a call of [perlin_blend] that returns had its four lattice points
    inside the grid. *)
Lemma perlin_blend_returns (n : nat) (G : Grid) (xr yr : R) (b : num) :
  square_grid n G ->
  perlin_blend G (Fin xr) (Fin yr) = Ok b ->
  (0 <= Int_part xr)%Z /\ (Int_part xr + 1 < Z.of_nat n)%Z /\
  (0 <= Int_part yr)%Z /\ (Int_part yr + 1 < Z.of_nat n)%Z.
Proof.
  intros HG E.
  cbv beta iota zeta delta [perlin_blend] in E.
  destruct (dot_prod_grid G (Fin xr) (Fin yr) (Int_part xr) (Int_part yr))
    as [n0 |] eqn:E00; [| discriminate].
  destruct (dot_prod_grid G (Fin xr) (Fin yr) (Int_part xr + 1) (Int_part yr))
    as [n1 |] eqn:E10; [| discriminate].
  destruct (dot_prod_grid G (Fin xr) (Fin yr) (Int_part xr)
              (Int_part yr + 1)) as [n0' |] eqn:E01; [| discriminate].
  destruct (dot_prod_grid G (Fin xr) (Fin yr) (Int_part xr + 1)
              (Int_part yr + 1)) as [n1' |] eqn:E11; [| discriminate].
  destruct (dot_prod_grid_returns _ _ _ _ HG E00) as [? ?].
  destruct (dot_prod_grid_returns _ _ _ _ HG E11) as [? ?].
  lia.
Qed.

(** C4: for every input with [floor(x) + 1 < nodes] and
    [floor(y) + 1 < nodes] and every [nodes] x [nodes] grid of unit vectors,
    the quintic blend of the four corner dot products that [perlin_get]
    computes lies in [-1, 1] and the value it returns, [(blend + 1) / 2],
    lies in [0, 1]; it does compute them as soon as the coordinates are not
    negative (otherwise a gradient read throws). *)
Theorem perlin_get_bounds (n : nat) (G : Grid) (xr yr : R) :
  square_grid n G -> unit_grid G ->
  (Int_part xr + 1 < Z.of_nat n)%Z -> (Int_part yr + 1 < Z.of_nat n)%Z ->
  (forall b, perlin_blend G (Fin xr) (Fin yr) = Ok b ->
     exists br, b = Fin br /\ -1 <= br <= 1 /\
                perlin_get G (Fin xr) (Fin yr) = Ok (Fin ((br + 1) / 2)) /\
                0 <= (br + 1) / 2 <= 1) /\
  (0 <= xr -> 0 <= yr ->
   exists br, perlin_blend G (Fin xr) (Fin yr) = Ok (Fin br)).
Proof.
  intros HG HU Hx1 Hy1. split.
  - intros b E.
    destruct (perlin_blend_returns _ _ HG E) as [Hx0 [_ [Hy0 _]]].
    destruct (@perlin_blend_bounded n G xr yr HG HU Hx0 Hx1 Hy0 Hy1) as [br [E' Hb]].
    rewrite E' in E. injection E as <-.
    exists br. split; [reflexivity |]. split; [exact Hb |].
    split; [| lra].
    unfold perlin_get. rewrite E'. f_equal.
    change (Fin br + Fin 1)%num with (Fin (br + 1)).
    apply ndiv_fin. lra.
  - intros Hx Hy.
    assert (Hx0 : (0 <= Int_part xr)%Z).
    { destruct (base_Int_part xr) as [_ Hh].
      assert (-1 < Int_part xr)%Z by (apply lt_IZR; lra). lia. }
    assert (Hy0 : (0 <= Int_part yr)%Z).
    { destruct (base_Int_part yr) as [_ Hh].
      assert (-1 < Int_part yr)%Z by (apply lt_IZR; lra). lia. }
    destruct (@perlin_blend_bounded n G xr yr HG HU Hx0 Hx1 Hy0 Hy1) as [br [E' _]].
    now exists br.
Qed.

Lemma sample_grid_square : square_grid 2 sample_grid.
Proof. split; [reflexivity | repeat constructor]. Qed.

Lemma sample_grid_unit : unit_grid sample_grid.
Proof.
  repeat constructor; eexists _, _; (split; [reflexivity | lra]).
Qed.

Lemma perlin_get_bounds_witness :
  (forall b, perlin_blend sample_grid (Fin (1 / 2)) (Fin (1 / 4)) = Ok b ->
     exists br, b = Fin br /\ -1 <= br <= 1 /\
                perlin_get sample_grid (Fin (1 / 2)) (Fin (1 / 4))
                = Ok (Fin ((br + 1) / 2)) /\
                0 <= (br + 1) / 2 <= 1) /\
  (0 <= 1 / 2 -> 0 <= 1 / 4 ->
   exists br, perlin_blend sample_grid (Fin (1 / 2)) (Fin (1 / 4))
              = Ok (Fin br)).
Proof.
  apply (@perlin_get_bounds 2 sample_grid (1 / 2) (1 / 4)).
  - exact sample_grid_square.
  - exact sample_grid_unit.
  - rewrite (@Int_part_bounds (1 / 2) 0); [lia | simpl; lra].
  - rewrite (@Int_part_bounds (1 / 4) 0); [lia | simpl; lra].
Defined.

(** At a lattice point only that point's gradient counts, and the
    displacement is zero: the value is 1/2. *)
Lemma perlin_get_at_origin :
  perlin_get sample_grid (Fin 0) (Fin 0) = Ok (Fin (1 / 2)).
Proof.
  unfold perlin_get.
  cbv beta iota zeta delta [perlin_blend].
  change 0 with (IZR 0). rewrite Int_part_IZR.
  cbv -[IZR Rplus Rmult Ropp Rminus Rdiv Rinv pow Rsign].
  rewrite (@Rsign_pos 2) by lra. do 2 f_equal. field.
Qed.

(** ** A single octave *)


(** The value [perlin_get] returns on a grid of unit vectors is a real
    number of [0, 1]. *)
Lemma perlin_get_finite (n : nat) (G : Grid) (xr yr : R) (v : num) :
  square_grid n G -> unit_grid G ->
  perlin_get G (Fin xr) (Fin yr) = Ok v ->
  exists vr, v = Fin vr /\ 0 <= vr <= 1.
Proof.
  intros HG HU E. unfold perlin_get in E.
  destruct (perlin_blend G (Fin xr) (Fin yr)) as [b |] eqn:Eb; [| discriminate].
  destruct (perlin_blend_returns _ _ HG Eb) as [Hx0 [Hx1 [Hy0 Hy1]]].
  destruct (@perlin_blend_bounded n G xr yr HG HU Hx0 Hx1 Hy0 Hy1)
    as [br [Eb' Hb]].
  rewrite Eb' in Eb. injection Eb as <-. injection E as <-.
  exists ((br + 1) / 2). split; [| lra].
  change (Fin br + Fin 1)%num with (Fin (br + 1)). apply ndiv_fin. lra.
Qed.

(** A sample whose right-hand lattice column is [nodes] throws. *)
Lemma perlin_get_past_the_grid (n : nat) (G : Grid) (xr yr : R) :
  square_grid n G ->
  (Z.of_nat n <= Int_part xr + 1)%Z ->
  perlin_get G (Fin xr) (Fin yr) = TypeError.
Proof.
  intros HG Hx.
  destruct (perlin_get G (Fin xr) (Fin yr)) as [v |] eqn:E; [| reflexivity].
  unfold perlin_get in E.
  destruct (perlin_blend G (Fin xr) (Fin yr)) as [b |] eqn:Eb; [| discriminate].
  destruct (perlin_blend_returns _ _ HG Eb) as [_ [Hx1 _]]. lia.
Qed.

(** The coordinate of the first octave: [i / size * (nodes * 2 ** 0)]. *)
Lemma first_octave_coord (i size scale : nat) :
  (1 <= size)%nat ->
  (of_nat i / of_nat size * (of_nat scale * npow (Fin 2) 0))%num
  = Fin (INR i / INR size * INR scale).
Proof.
  intros Hs. unfold of_nat. rewrite ndiv_fin.
  - simpl. f_equal. ring.
  - apply not_0_INR. lia.
Qed.






Section SingleOctave.

Context {rng : Type} {RS : FastRandomBlocks rng}.


(** [createLayeredNoiseMap] with [layers = 1], unfolded: one gradient
    grid, one pass of [add_layer] over the zero field with amplitude 1,
    and the division by the total amplitude [0 + 1]. *)
Lemma createLayeredNoiseMap_one (w h : nat) (scale : option nat)
  (persistence : option num) (s : State rng) :
  createLayeredNoiseMap w h 1 scale persistence s =
  let n := scale_or_default scale in
  let Gg := initialize_gradients n (ensure_rng s) in
  match add_layer (fst Gg) w h (of_nat n * npow (Fin 2) 0)%num (Fin 1)
          (tabulate h (fun y => tabulate w (fun x => Fin 0))) with
  | TypeError => (TypeError, mkState n (fst Gg) (Some (snd Gg)))
  | Ok noiseMap =>
      (Ok (map (map (fun v => (v / (Fin 0 + Fin 1))%num)) noiseMap),
       mkState n (fst Gg) (Some (snd Gg)))
  end.
Proof.
  unfold createLayeredNoiseMap, layer_loop.
  destruct (initialize_gradients (scale_or_default scale) (ensure_rng s))
    as [G g'].
  cbv zeta. simpl fst. simpl snd.
  destruct (add_layer G w h (of_nat (scale_or_default scale) * npow (Fin 2) 0)
              (Fin 1) (tabulate h (fun y => tabulate w (fun x => Fin 0))));
    reflexivity.
Qed.

(** Where the single octave is wider than the lattice it throws: the
    sample of the last column has [floor(x) + 1 = nodes]. *)
Lemma single_octave_throws (w h scale : nat) (persistence : option num)
  (s : State rng) :
  (1 <= h)%nat -> (1 <= scale <= w)%nat ->
  fst (createLayeredNoiseMap w h 1 (Some scale) persistence s) = TypeError.
Proof.
  intros Hh Hs. rewrite createLayeredNoiseMap_one. cbv zeta.
  assert (Hd : scale_or_default (Some scale) = scale).
  { destruct scale; [lia | reflexivity]. }
  rewrite Hd.
  pose proof (initialize_gradients_square scale (ensure_rng s)) as HG.
  set (G := fst (initialize_gradients scale (ensure_rng s))) in *.
  assert (E : add_layer G w h (of_nat scale * npow (Fin 2) 0)%num (Fin 1)
                (tabulate h (fun y => tabulate w (fun x => Fin 0)))
              = TypeError).
  { unfold add_layer. apply for_each_throws with 0%nat; [lia |].
    apply for_each_throws with (w - 1)%nat; [lia |].
    rewrite !first_octave_coord by lia.
    rewrite (@perlin_get_past_the_grid scale G); [reflexivity | exact HG |].
    assert (Hw : 0 < INR w) by (apply lt_0_INR; lia).
    assert (Hsc : 1 <= INR scale <= INR w).
    { split; [apply (le_INR 1) | apply le_INR]; lia. }
    rewrite (@Int_part_bounds _ (Z.of_nat scale - 1)); [lia |].
    rewrite minus_IZR, <- INR_IZR_INZ, minus_INR by lia. simpl INR.
    assert (Hq : INR scale / INR w <= 1).
    { apply (Rmult_le_reg_r (INR w)); [assumption |].
      unfold Rdiv. rewrite Rmult_assoc, Rinv_l by lra. lra. }
    assert (Hq0 : 0 < INR scale / INR w).
    { apply Rdiv_lt_0_compat; lra. }
    replace ((INR w - 1) / INR w * INR scale)
      with (INR scale - INR scale / INR w) by (field; lra).
    lra. }
  rewrite E. reflexivity.
Qed.


End SingleOctave.

(** For a 2 x 1 field at scale 2 the single-octave call throws (its second
    sample is at lattice coordinate 1, whose right neighbour is outside
    the 2 x 2 grid) while the Perlin call returns a field. *)
Lemma single_octave_throws_example :
  fst (createLayeredNoiseMap 2 1 1 (Some 2%nat) None (initial_state 1))
  = TypeError /\
  exists F, fst (createNoiseMap NoiseType.Perlin 2 1 (Some 2%nat)
                   (initial_state 1)) = Ok F.
Proof.
  split.
  - apply single_octave_throws; lia.
  - destruct (@coherent_ok Z LCG generate_perlin_noise 2 1 2 (initial_state 1))
      as [_ [_ [F [HF _]]]]; [lia | |].
    + intros G HG. apply generate_perlin_noise_ok; [lia | exact HG].
    + exists F. exact HF.
Qed.

(** ** The two samplings give different values *)







(** * Further properties of the field algebra *)

Lemma tabulate_ext {A : Type} (n : nat) (f g : nat -> A) :
  (forall i, (i < n)%nat -> f i = g i) -> tabulate n f = tabulate n g.
Proof.
  intros H. unfold tabulate. apply map_ext_in.
  intros i Hi. apply in_seq in Hi. apply H. lia.
Qed.

Lemma rectangular_cell_in (h w : nat) (F : Field) (y x : nat) :
  rectangular h w F -> (y < h)%nat -> (x < w)%nat ->
  In (nth y F []) F /\ In (cell F y x) (nth y F []).
Proof.
  intros [Hlen Hrows] Hy Hx.
  assert (Hin : In (nth y F []) F) by (apply nth_In; lia).
  split; [exact Hin |].
  rewrite Forall_forall in Hrows. unfold cell. apply nth_In.
  rewrite (Hrows _ Hin). exact Hx.
Qed.

Lemma tabulate_cells (P : num -> Prop) (h w : nat) (f : nat -> nat -> num) :
  (forall y x, (y < h)%nat -> (x < w)%nat -> P (f y x)) ->
  forall row, In row (tabulate h (fun y => tabulate w (f y))) ->
  forall v, In v row -> P v.
Proof.
  intros H row Hrow v Hv. unfold tabulate in Hrow.
  apply in_map_iff in Hrow. destruct Hrow as [y [<- Hy]].
  apply in_map_iff in Hv. destruct Hv as [x [<- Hx]].
  apply in_seq in Hy. apply in_seq in Hx. apply H; lia.
Qed.

(** Two rectangular fields of one size with the same cells are equal. *)
Lemma field_ext (h w : nat) (F F' : Field) :
  rectangular h w F -> rectangular h w F' ->
  (forall y x, (y < h)%nat -> (x < w)%nat -> cell F y x = cell F' y x) ->
  F = F'.
Proof.
  intros [Hl Hr] [Hl' Hr'] Hc.
  apply (nth_ext F F' [] []); [lia |].
  intros y Hy. rewrite Hl in Hy.
  rewrite Forall_forall in Hr, Hr'.
  assert (Hw : length (nth y F []) = w) by (apply Hr, nth_In; lia).
  assert (Hw' : length (nth y F' []) = w) by (apply Hr', nth_In; lia).
  apply (nth_ext _ _ NaN NaN); [lia |].
  intros x Hx. rewrite Hw in Hx. now apply Hc.
Qed.

Lemma nadd_comm (a b : num) : (a + b)%num = (b + a)%num.
Proof. destruct a, b; simpl; try reflexivity. f_equal. ring. Qed.

Lemma nmul_comm (a b : num) : (a * b)%num = (b * a)%num.
Proof. destruct a, b; simpl; try reflexivity. f_equal. ring. Qed.

Lemma Math_max_comm (a b : num) : Math_max a b = Math_max b a.
Proof. destruct a, b; simpl; try reflexivity. f_equal. apply Rmax_comm. Qed.

Lemma Math_min_comm (a b : num) : Math_min a b = Math_min b a.
Proof. destruct a, b; simpl; try reflexivity. f_equal. apply Rmin_comm. Qed.

(** X1: Product, Average, Union and Intersection are symmetric: swapping
    the two fields gives the same result, cropping and exceptions
    included. *)
Theorem combine_symmetric (a b : Field) (operation : Z) :
  In operation [CombineOptions.Product; CombineOptions.Average;
                CombineOptions.Union; CombineOptions.Intersection] ->
  combineNoiseMaps a b operation = combineNoiseMaps b a operation.
Proof.
  intros Hop.
  assert (Hcell : forall v1 v2,
             combine_cell operation v1 v2 = combine_cell operation v2 v1).
  { intros v1 v2. unfold combine_cell.
    destruct Hop as [<- | [<- | [<- | [<- | []]]]]; simpl Z.eqb; cbv iota.
    - now rewrite nmul_comm.
    - now rewrite nadd_comm.
    - apply Math_max_comm.
    - apply Math_min_comm. }
  destruct a as [| row1 a'], b as [| row2 b']; try reflexivity.
  unfold combineNoiseMaps.
  rewrite (Nat.min_comm (length (row2 :: b'))), (Nat.min_comm (length row2)).
  f_equal. apply tabulate_ext. intros y _. apply tabulate_ext. intros x _.
  apply Hcell.
Qed.

Lemma combine_symmetric_witness :
  combineNoiseMaps [[Fin 0; Fin 1]] [[Fin 1]; [Fin 0]] CombineOptions.Average
  = combineNoiseMaps [[Fin 1]; [Fin 0]] [[Fin 0; Fin 1]] CombineOptions.Average.
Proof.
  apply (@combine_symmetric [[Fin 0; Fin 1]] [[Fin 1]; [Fin 0]]
           CombineOptions.Average).
  simpl. tauto.
Defined.

Lemma combine_cell_unit (operation : Z) (v1 v2 : num) :
  operation <> CombineOptions.Quotient ->
  in_unit v1 -> in_unit v2 -> in_unit (combine_cell operation v1 v2).
Proof.
  intros Hop [r1 [-> H1]] [r2 [-> H2]]. unfold combine_cell.
  repeat match goal with
         | |- context [(?a =? ?b)%Z] => destruct (Z.eqb_spec a b)
         end; try contradiction.
  - simpl. unfold Rltb. destruct (Rlt_dec (r1 * r2) 0) as [Hneg | _]; [nra |].
    exists (sqrt (r1 * r2)). split; [reflexivity |]. split.
    + apply sqrt_pos.
    + rewrite <- sqrt_1. apply sqrt_le_1; nra.
  - change (Fin r1 + Fin r2)%num with (Fin (r1 + r2)).
    rewrite ndiv_fin by lra. eexists. split; [reflexivity | lra].
  - simpl. eexists. split; [reflexivity |].
    split; [apply Rmax_l |].
    apply Rmax_lub; [lra | apply Rmin_l].
  - simpl. eexists. split; [reflexivity |].
    unfold Rmax. destruct (Rle_dec r1 r2); lra.
  - simpl. eexists. split; [reflexivity |].
    unfold Rmin. destruct (Rle_dec r1 r2); lra.
  - now exists r1.
Qed.

(** X2: every operation but Quotient keeps fields normalised: combining
    two non-empty rectangular fields whose cells lie in [0, 1] returns a
    field whose cells lie in [0, 1] (Product, Average, Difference, Union,
    Intersection, and the pass-through of an unknown operation). *)
Theorem combine_keeps_unit_interval (a b : Field) (h1 w1 h2 w2 : nat)
  (operation : Z) :
  rectangular h1 w1 a -> rectangular h2 w2 b ->
  (1 <= h1)%nat -> (1 <= h2)%nat ->
  normalised a -> normalised b ->
  operation <> CombineOptions.Quotient ->
  exists F, combineNoiseMaps a b operation = Ok F /\ normalised F.
Proof.
  intros Ha Hb Hh1 Hh2 Na Nb Hop.
  destruct (rectangular_first_row Ha Hh1) as [row1 [a' [Ea Hw1]]].
  destruct (rectangular_first_row Hb Hh2) as [row2 [b' [Eb Hw2]]].
  assert (Hl1 : length a = h1) by apply Ha.
  assert (Hl2 : length b = h2) by apply Hb.
  exists (tabulate (Nat.min h1 h2) (fun y =>
            tabulate (Nat.min w1 w2) (fun x =>
              combine_cell operation (cell a y x) (cell b y x)))).
  split.
  - rewrite <- Hl1, <- Hl2, <- Hw1, <- Hw2. now rewrite Ea, Eb.
  - unfold normalised. apply (@tabulate_cells in_unit). intros y x Hy Hx.
    destruct (@rectangular_cell_in h1 w1 a y x Ha) as [R1 C1]; try lia.
    destruct (@rectangular_cell_in h2 w2 b y x Hb) as [R2 C2]; try lia.
    apply combine_cell_unit; [assumption | |].
    + exact (Na _ R1 _ C1).
    + exact (Nb _ R2 _ C2).
Qed.

Lemma unit_field_example : normalised [[Fin (1 / 4); Fin 1]].
Proof.
  intros row [<- | []] v [<- | [<- | []]]; eexists; (split; [reflexivity | lra]).
Qed.

Lemma combine_keeps_unit_interval_witness :
  exists F,
    combineNoiseMaps [[Fin (1 / 4); Fin 1]] [[Fin (1 / 4); Fin 1]]
      CombineOptions.Product = Ok F /\ normalised F.
Proof.
  apply (@combine_keeps_unit_interval [[Fin (1 / 4); Fin 1]]
           [[Fin (1 / 4); Fin 1]] 1 2 1 2 CombineOptions.Product).
  - split; [reflexivity | repeat constructor].
  - split; [reflexivity | repeat constructor].
  - lia.
  - lia.
  - exact unit_field_example.
  - exact unit_field_example.
  - discriminate.
Defined.

(** Quotient does not: 1/2 divided by 1/4 is 2. *)
Lemma combine_quotient_leaves_unit_interval :
  combineNoiseMaps [[Fin (1 / 2)]] [[Fin (1 / 4)]] CombineOptions.Quotient
  = Ok [[Fin 2]].
Proof.
  cbn -[ndiv]. rewrite ndiv_fin by lra. do 3 f_equal. f_equal. field.
Qed.

(** X3: Difference clamps: on two finite cells [r1] and [r2] of the
    combined region the result is [r1 - r2 + 0.5] cut to [0, 1], that is 0
    as soon as [r1 - r2 <= -0.5] and 1 as soon as [r1 - r2 >= 0.5]. *)
Theorem combine_difference_clamps (a b : Field) (y x : nat) (r1 r2 : R) :
  (y < Nat.min (length a) (length b))%nat ->
  (x < Nat.min (length (nth 0 a [])) (length (nth 0 b [])))%nat ->
  cell a y x = Fin r1 -> cell b y x = Fin r2 ->
  exists F,
    combineNoiseMaps a b CombineOptions.Difference = Ok F /\
    in_unit (cell F y x) /\
    (r1 - r2 <= - (1 / 2) -> cell F y x = Fin 0) /\
    (1 / 2 <= r1 - r2 -> cell F y x = Fin 1) /\
    (- (1 / 2) <= r1 - r2 <= 1 / 2 -> cell F y x = Fin (r1 - r2 + 1 / 2)).
Proof.
  intros Hy Hx E1 E2.
  destruct (combineNoiseMaps_cell a b CombineOptions.Difference Hy Hx)
    as [F [HF Hc]].
  exists F. split; [exact HF |].
  rewrite Hc, E1, E2.
  change (combine_cell CombineOptions.Difference (Fin r1) (Fin r2))
    with (Fin (Rmax 0 (Rmin 1 (r1 + - r2 + 1 / 2)))).
  assert (Hmin : forall t, Rmin 1 t = 1 /\ 1 <= t \/ Rmin 1 t = t /\ t <= 1).
  { intros t. unfold Rmin. destruct (Rle_dec 1 t); [left | right]; lra. }
  assert (Hmax : forall t, Rmax 0 t = t /\ 0 <= t \/ Rmax 0 t = 0 /\ t <= 0).
  { intros t. unfold Rmax. destruct (Rle_dec 0 t); [left | right]; lra. }
  destruct (Hmin (r1 + - r2 + 1 / 2)) as [[Em Hm] | [Em Hm]]; rewrite Em;
    [destruct (Hmax 1) as [[EM HM] | [EM HM]]
    | destruct (Hmax (r1 + - r2 + 1 / 2)) as [[EM HM] | [EM HM]]];
    rewrite EM;
    (split; [eexists; split; [reflexivity | lra] |]);
    repeat split; intros; f_equal; lra.
Qed.

Lemma combine_difference_clamps_witness :
  exists F,
    combineNoiseMaps [[Fin 1]] [[Fin 0]] CombineOptions.Difference = Ok F /\
    in_unit (cell F 0 0) /\
    (1 - 0 <= - (1 / 2) -> cell F 0 0 = Fin 0) /\
    (1 / 2 <= 1 - 0 -> cell F 0 0 = Fin 1) /\
    (- (1 / 2) <= 1 - 0 <= 1 / 2 -> cell F 0 0 = Fin (1 - 0 + 1 / 2)).
Proof.
  apply (@combine_difference_clamps [[Fin 1]] [[Fin 0]] 0 0 1 0);
    first [reflexivity | simpl; lia].
Defined.

Lemma tabulate_S {A : Type} (n : nat) (f : nat -> A) :
  tabulate (S n) f = f 0%nat :: tabulate n (fun i => f (S i)).
Proof.
  unfold tabulate. simpl. f_equal. rewrite <- seq_shift. now rewrite map_map.
Qed.

Lemma invert_noise_rectangular (h w : nat) (a : Field) :
  rectangular h w a -> (1 <= h)%nat ->
  invert_noise a =
  Ok (tabulate h (fun y => tabulate w (fun x => (Fin 1 - cell a y x)%num))).
Proof.
  intros Ha Hh.
  destruct (rectangular_first_row Ha Hh) as [row0 [rest [-> Hw]]].
  destruct Ha as [Hl _]. unfold invert_noise. now rewrite Hl, Hw.
Qed.

Lemma thresholdNoiseMap_rectangular (h w : nat) (a : Field) (t : num) :
  rectangular h w a -> (1 <= h)%nat ->
  thresholdNoiseMap a t =
  Ok (tabulate h (fun y =>
        tabulate w (fun x => if ngtb (cell a y x) t then Fin 1 else Fin 0))).
Proof.
  intros Ha Hh.
  destruct (rectangular_first_row Ha Hh) as [row0 [rest [-> Hw]]].
  destruct Ha as [Hl _]. unfold thresholdNoiseMap. now rewrite Hl, Hw.
Qed.

(** X5: [thresholdNoiseMap] on a non-empty rectangular field returns a
    field of the same size whose cells are 0 or 1, a cell being 1 exactly
    when the source cell is above the threshold (so a NaN cell gives 0);
    thresholding the result again at any level of [0, 1) changes
    nothing. *)
Theorem threshold_is_binary_and_stable (h w : nat) (a : Field) (t : num) :
  rectangular h w a -> (1 <= h)%nat ->
  exists b,
    thresholdNoiseMap a t = Ok b /\ rectangular h w b /\ binary b /\
    (forall y x, (y < h)%nat -> (x < w)%nat ->
       (cell b y x = Fin 1 <-> ngtb (cell a y x) t = true)) /\
    (forall t', 0 <= t' < 1 -> thresholdNoiseMap b (Fin t') = Ok b).
Proof.
  intros Ha Hh.
  set (b := tabulate h (fun y =>
              tabulate w (fun x =>
                if ngtb (cell a y x) t then Fin 1 else Fin 0))).
  assert (Hb : rectangular h w b) by apply tabulate_rectangular.
  assert (Hbin : forall y x, (y < h)%nat -> (x < w)%nat ->
             cell b y x = (if ngtb (cell a y x) t then Fin 1 else Fin 0)).
  { intros y x Hy Hx. unfold b. now rewrite cell_tabulate. }
  exists b. split; [now apply thresholdNoiseMap_rectangular |].
  split; [exact Hb |]. split; [| split].
  - unfold binary, b.
    apply (@tabulate_cells (fun v => v = Fin 0 \/ v = Fin 1)).
    intros y x _ _. destruct (ngtb (cell a y x) t); [now right | now left].
  - intros y x Hy Hx. rewrite Hbin by assumption.
    destruct (ngtb (cell a y x) t); split; intros H;
      first [reflexivity | discriminate H | apply Fin_inj in H; lra].
  - intros t' Ht'. rewrite (thresholdNoiseMap_rectangular _ Hb Hh).
    apply (f_equal (@Ok Field)).
    apply (@field_ext h w); [apply tabulate_rectangular | exact Hb |].
    intros y x Hy Hx. rewrite cell_tabulate by assumption.
    rewrite (Hbin y x Hy Hx).
    destruct (ngtb (cell a y x) t); unfold ngtb, nltb, Rltb.
    + destruct (Rlt_dec t' 1); [reflexivity | lra].
    + destruct (Rlt_dec t' 0); [lra | reflexivity].
Qed.

Lemma threshold_is_binary_and_stable_witness :
  exists b,
    thresholdNoiseMap [[Fin (1 / 4); NaN; Fin 1]] (Fin (1 / 2)) = Ok b /\
    rectangular 1 3 b /\ binary b /\
    (forall y x, (y < 1)%nat -> (x < 3)%nat ->
       (cell b y x = Fin 1 <->
        ngtb (cell [[Fin (1 / 4); NaN; Fin 1]] y x) (Fin (1 / 2)) = true)) /\
    (forall t', 0 <= t' < 1 -> thresholdNoiseMap b (Fin t') = Ok b).
Proof.
  apply (@threshold_is_binary_and_stable 1 3 [[Fin (1 / 4); NaN; Fin 1]]
           (Fin (1 / 2))).
  - split; [reflexivity | repeat constructor].
  - lia.
Defined.

(** X4: [invert_noise] on a non-empty rectangular field returns a field of
    the same size and keeps a normalised field normalised.  Applied to the
    mask that [thresholdNoiseMap] returns it gives the mask of the cells
    that are not above the threshold, again made of 0 and 1, and inverting
    that mask returns the first one. *)
Theorem invert_noise_complements (h w : nat) (a : Field) (t : num) :
  rectangular h w a -> (1 <= h)%nat ->
  (exists c,
     invert_noise a = Ok c /\ rectangular h w c /\
     (normalised a -> normalised c)) /\
  (exists b c,
     thresholdNoiseMap a t = Ok b /\ invert_noise b = Ok c /\
     rectangular h w c /\ binary c /\
     (forall y x, (y < h)%nat -> (x < w)%nat ->
        (cell c y x = Fin 1 <-> ngtb (cell a y x) t = false)) /\
     invert_noise c = Ok b).
Proof.
  intros Ha Hh. split.
  - exists (tabulate h (fun y =>
              tabulate w (fun x => (Fin 1 - cell a y x)%num))).
    split; [now apply invert_noise_rectangular |].
    split; [apply tabulate_rectangular |].
    intros Hn. unfold normalised. apply (@tabulate_cells in_unit).
    intros y x Hy Hx.
    destruct (rectangular_cell_in Ha Hy Hx) as [Hr Hv].
    destruct (Hn _ Hr _ Hv) as [r [-> Hr01]].
    exists (1 - r). split; [reflexivity | lra].
  - set (b := tabulate h (fun y =>
                tabulate w (fun x =>
                  if ngtb (cell a y x) t then Fin 1 else Fin 0))).
    set (c := tabulate h (fun y =>
                tabulate w (fun x => (Fin 1 - cell b y x)%num))).
    assert (Hb : rectangular h w b) by apply tabulate_rectangular.
    assert (Hc : rectangular h w c) by apply tabulate_rectangular.
    assert (Ec : forall y x, (y < h)%nat -> (x < w)%nat ->
              cell c y x = (if ngtb (cell a y x) t then Fin 0 else Fin 1)).
    { intros y x Hy Hx. unfold c, b. rewrite !cell_tabulate by assumption.
      destruct (ngtb (cell a y x) t); simpl; f_equal; lra. }
    exists b, c. split; [now apply thresholdNoiseMap_rectangular |].
    split; [now apply invert_noise_rectangular |].
    split; [exact Hc |]. split; [| split].
    + unfold binary, c.
      apply (@tabulate_cells (fun v => v = Fin 0 \/ v = Fin 1)).
      intros y x Hy Hx. unfold b. rewrite cell_tabulate by assumption.
      destruct (ngtb (cell a y x) t); [left | right]; simpl; f_equal; lra.
    + intros y x Hy Hx. rewrite Ec by assumption.
      destruct (ngtb (cell a y x) t); split; intros H;
        first [reflexivity | discriminate H | apply Fin_inj in H; lra].
    + rewrite (invert_noise_rectangular Hc Hh). apply (f_equal (@Ok Field)).
      apply (@field_ext h w); [apply tabulate_rectangular | exact Hb |].
      intros y x Hy Hx. rewrite cell_tabulate by assumption.
      rewrite Ec by assumption. unfold b. rewrite cell_tabulate by assumption.
      destruct (ngtb (cell a y x) t); simpl; f_equal; lra.
Qed.

Lemma invert_noise_complements_witness :
  (exists c,
     invert_noise [[Fin (1 / 4); NaN; Fin 1]] = Ok c /\ rectangular 1 3 c /\
     (normalised [[Fin (1 / 4); NaN; Fin 1]] -> normalised c)) /\
  (exists b c,
     thresholdNoiseMap [[Fin (1 / 4); NaN; Fin 1]] (Fin (1 / 2)) = Ok b /\
     invert_noise b = Ok c /\
     rectangular 1 3 c /\ binary c /\
     (forall y x, (y < 1)%nat -> (x < 3)%nat ->
        (cell c y x = Fin 1 <->
         ngtb (cell [[Fin (1 / 4); NaN; Fin 1]] y x) (Fin (1 / 2)) = false)) /\
     invert_noise c = Ok b).
Proof.
  apply (@invert_noise_complements 1 3 [[Fin (1 / 4); NaN; Fin 1]]
           (Fin (1 / 2))).
  - split; [reflexivity | repeat constructor].
  - lia.
Defined.

(** X7: the older revision's [combineNoiseMaps] agrees with the current
    one for every operation other than 0 (where it multiplies instead of
    taking the square root of the product) and 5 (which it does not
    know). *)
Theorem legacy_combine_agrees (a b : Field) (operation : Z) :
  operation <> CombineOptions.Product ->
  operation <> CombineOptions.Quotient ->
  Legacy.combineNoiseMaps a b operation = combineNoiseMaps a b operation.
Proof.
  intros H0 H5.
  assert (Hcell : forall v1 v2, Legacy.combine_cell operation v1 v2
                                = combine_cell operation v1 v2).
  { intros v1 v2. unfold Legacy.combine_cell, combine_cell,
      CombineOptions.Product, CombineOptions.Average,
      CombineOptions.Difference, CombineOptions.Union,
      CombineOptions.Intersection, CombineOptions.Quotient in *.
    repeat match goal with
           | |- context [(?p =? ?q)%Z] => destruct (Z.eqb_spec p q)
           end; try reflexivity; lia. }
  destruct a as [| row1 a'], b as [| row2 b']; try reflexivity.
  unfold Legacy.combineNoiseMaps, combineNoiseMaps. f_equal.
  apply tabulate_ext. intros y _. apply tabulate_ext. intros x _.
  apply Hcell.
Qed.

Lemma legacy_combine_agrees_witness :
  Legacy.combineNoiseMaps [[Fin 0]] [[Fin 1]] 3
  = combineNoiseMaps [[Fin 0]] [[Fin 1]] 3.
Proof.
  apply (@legacy_combine_agrees [[Fin 0]] [[Fin 1]] 3); discriminate.
Defined.

(** * Further properties of the masks *)

(** X8: the horizontal gradient is the vertical one transposed, for every
    size ([0 / 0] included): its cell [(y, x)] is the cell [(x, y)] of the
    vertical gradient of swapped width and height.  For a width of at
    least 2 that is [x / (width - 1)]: 0 in the first column and 1 in the
    last. *)
Theorem horizontal_gradient_transposes (w h y x : nat) :
  (y < h)%nat -> (x < w)%nat ->
  cell (generate_horizontal_gradient w h) y x
  = cell (generate_vertical_gradient h w) x y /\
  ((2 <= w)%nat ->
   cell (generate_horizontal_gradient w h) y x = Fin (INR x / (INR w - 1)) /\
   cell (generate_horizontal_gradient w h) y 0 = Fin 0 /\
   cell (generate_horizontal_gradient w h) y (w - 1) = Fin 1).
Proof.
  intros Hy Hx.
  assert (E : forall x', (x' < w)%nat ->
            cell (generate_horizontal_gradient w h) y x'
            = (of_nat x' / (of_nat w - Fin 1))%num).
  { intros x' Hx'. unfold generate_horizontal_gradient.
    now rewrite cell_tabulate. }
  split.
  - rewrite (E x Hx). unfold generate_vertical_gradient.
    now rewrite cell_tabulate.
  - intros Hw.
    assert (Hpos : INR w - 1 <> 0).
    { apply le_INR in Hw. simpl in Hw. lra. }
    assert (E' : forall x', (x' < w)%nat ->
              cell (generate_horizontal_gradient w h) y x'
              = Fin (INR x' / (INR w - 1))).
    { intros x' Hx'. rewrite (E x' Hx'). unfold of_nat at 1.
      rewrite of_nat_pred. now apply ndiv_fin. }
    split; [now apply E' | split].
    + rewrite E' by lia. f_equal. simpl. field. exact Hpos.
    + rewrite E' by lia. f_equal. rewrite minus_INR by lia. simpl.
      field. exact Hpos.
Qed.

Lemma horizontal_gradient_transposes_witness :
  cell (generate_horizontal_gradient 3 2) 1 2
  = cell (generate_vertical_gradient 2 3) 2 1 /\
  ((2 <= 3)%nat ->
   cell (generate_horizontal_gradient 3 2) 1 2 = Fin (INR 2 / (INR 3 - 1)) /\
   cell (generate_horizontal_gradient 3 2) 1 0 = Fin 0 /\
   cell (generate_horizontal_gradient 3 2) 1 (3 - 1) = Fin 1).
Proof. apply (@horizontal_gradient_transposes 3 2 1 2); lia. Defined.

Lemma Rmin_unit_1 (r : R) : r <= 1 -> Rmin r 1 = r.
Proof. intros H. unfold Rmin. destruct (Rle_dec r 1); lra. Qed.

Lemma Rmax_unit_0 (r : R) : 0 <= r -> Rmax r 0 = r.
Proof. intros H. unfold Rmax. destruct (Rle_dec r 0); lra. Qed.

Lemma combineNoiseMaps_rectangular (a b : Field) (h1 w1 h2 w2 : nat)
  (operation : Z) :
  rectangular h1 w1 a -> rectangular h2 w2 b ->
  (1 <= h1)%nat -> (1 <= h2)%nat ->
  combineNoiseMaps a b operation =
  Ok (tabulate (Nat.min h1 h2) (fun y =>
        tabulate (Nat.min w1 w2) (fun x =>
          combine_cell operation (cell a y x) (cell b y x)))).
Proof.
  intros Ha Hb Hh1 Hh2.
  destruct (rectangular_first_row Ha Hh1) as [row1 [a' [Ea Hw1]]].
  destruct (rectangular_first_row Hb Hh2) as [row2 [b' [Eb Hw2]]].
  assert (Hl1 : length a = h1) by apply Ha.
  assert (Hl2 : length b = h2) by apply Hb.
  rewrite <- Hl1, <- Hl2, <- Hw1, <- Hw2. now rewrite Ea, Eb.
Qed.

(** X9: masking with a solid mask: the Intersection of a normalised
    [h] x [w] field with the solid mask of value 1 and its Union with the
    solid mask of value 0 both return the field unchanged. *)
Theorem solid_masks_are_neutral (h w : nat) (a : Field) :
  rectangular h w a -> (1 <= h)%nat -> normalised a ->
  combineNoiseMaps a (generate_solid_mask w h (Some (Fin 1)))
    CombineOptions.Intersection = Ok a /\
  combineNoiseMaps a (generate_solid_mask w h (Some (Fin 0)))
    CombineOptions.Union = Ok a.
Proof.
  intros Ha Hh Na.
  assert (Hs : forall v, rectangular h w (generate_solid_mask w h (Some v))).
  { intros v. apply tabulate_rectangular. }
  assert (Hc : forall v y x, (y < h)%nat -> (x < w)%nat ->
            cell (generate_solid_mask w h (Some v)) y x = v).
  { intros v y x Hy Hx. unfold generate_solid_mask.
    now rewrite cell_tabulate. }
  split.
  - rewrite (combineNoiseMaps_rectangular _ Ha (Hs _) Hh Hh).
    apply (f_equal (@Ok Field)). rewrite !Nat.min_id.
    apply (@field_ext h w); [apply tabulate_rectangular | exact Ha |].
    intros y x Hy Hx. rewrite cell_tabulate, Hc by assumption.
    destruct (@rectangular_cell_in h w a y x Ha Hy Hx) as [R1 C1].
    destruct (Na _ R1 _ C1) as [r [-> Hr]].
    change (combine_cell CombineOptions.Intersection (Fin r) (Fin 1))
      with (Fin (Rmin r 1)).
    f_equal. apply Rmin_unit_1. lra.
  - rewrite (combineNoiseMaps_rectangular _ Ha (Hs _) Hh Hh).
    apply (f_equal (@Ok Field)). rewrite !Nat.min_id.
    apply (@field_ext h w); [apply tabulate_rectangular | exact Ha |].
    intros y x Hy Hx. rewrite cell_tabulate, Hc by assumption.
    destruct (@rectangular_cell_in h w a y x Ha Hy Hx) as [R1 C1].
    destruct (Na _ R1 _ C1) as [r [-> Hr]].
    change (combine_cell CombineOptions.Union (Fin r) (Fin 0))
      with (Fin (Rmax r 0)).
    f_equal. apply Rmax_unit_0. lra.
Qed.

Lemma solid_masks_are_neutral_witness :
  combineNoiseMaps [[Fin (1 / 4); Fin 1]]
    (generate_solid_mask 2 1 (Some (Fin 1))) CombineOptions.Intersection
  = Ok [[Fin (1 / 4); Fin 1]] /\
  combineNoiseMaps [[Fin (1 / 4); Fin 1]]
    (generate_solid_mask 2 1 (Some (Fin 0))) CombineOptions.Union
  = Ok [[Fin (1 / 4); Fin 1]].
Proof.
  apply (@solid_masks_are_neutral 1 2 [[Fin (1 / 4); Fin 1]]).
  - split; [reflexivity | repeat constructor].
  - lia.
  - exact unit_field_example.
Defined.

Section MaskDispatch.

Context {rng : Type} {RS : FastRandomBlocks rng}.

(** X10: [CreateNoiseMask] never draws from the random source and leaves
    [nodes] and [gradients] alone, so a noise map created after a mask is
    the one that would have been created without the mask; and for each of
    the seven mask kinds it returns a field of [height] rows of [width]
    cells. *)
Theorem CreateNoiseMask_keeps_generator (maskType noiseType : Z)
  (w h w' h' : nat) (opt : option num) (scale : option nat)
  (s : State rng) :
  createNoiseMap noiseType w' h' scale
    (snd (CreateNoiseMask maskType w h opt s))
  = createNoiseMap noiseType w' h' scale s /\
  ((0 <= maskType <= 6)%Z ->
   exists F, fst (CreateNoiseMask maskType w h opt s) = Some F /\
             rectangular h w F).
Proof.
  split.
  - assert (Hs : snd (CreateNoiseMask maskType w h opt s)
                 = mkState (nodes s) (gradients s) (Some (ensure_rng s))).
    { unfold CreateNoiseMask.
      repeat match goal with
             | |- context [if ?c then _ else _] => destruct c
             end; reflexivity. }
    rewrite Hs. unfold createNoiseMap, coherent, ensure_rng. reflexivity.
  - intros Hm. unfold CreateNoiseMask, MaskType.Gradient, MaskType.Solid,
      MaskType.Island, MaskType.Edge_falloff, MaskType.Horizontal_gradient,
      MaskType.Vertical_gradient, MaskType.Checkerboard.
    repeat match goal with
           | |- context [(?p =? ?q)%Z] => destruct (Z.eqb_spec p q)
           end; try lia;
      (eexists; split; [reflexivity | apply tabulate_rectangular]).
Qed.

End MaskDispatch.

Lemma Math_sqrt_fin (r : R) : 0 <= r -> Math_sqrt (Fin r) = Fin (sqrt r).
Proof.
  intros Hr. unfold Math_sqrt, Rltb. destruct (Rlt_dec r 0); [lra | reflexivity].
Qed.

Lemma of_nat_half (n : nat) : (of_nat n / Fin 2)%num = Fin (INR n / 2).
Proof. unfold of_nat. apply ndiv_fin. lra. Qed.

(** The two [if]s of [generate_gradient_mask]. *)
Lemma clamp_unit (v : R) :
  let value := if nltb (Fin v) (Fin 0) then Fin 0 else Fin v in
  let value' := if ngtb value (Fin 1) then Fin 1 else value in
  in_unit value' /\ (0 <= v <= 1 -> value' = Fin v).
Proof.
  cbv zeta. unfold ngtb, nltb, Rltb.
  destruct (Rlt_dec v 0) as [Hneg | Hpos].
  - destruct (Rlt_dec 1 0); [lra |].
    split; [exists 0; split; [reflexivity | lra] | intros; lra].
  - destruct (Rlt_dec 1 v) as [Hbig | Hsmall].
    + split; [exists 1; split; [reflexivity | lra] | intros; lra].
    + split; [exists v; split; [reflexivity | lra] | reflexivity].
Qed.

(** The value of [generate_gradient_mask] before clamping. *)
Lemma gradient_mask_cell (w h y x : nat) :
  (y < h)%nat -> (x < w)%nat ->
  let M := INR w / 2 * (INR w / 2) + INR h / 2 * (INR h / 2) in
  let D := (INR x - INR w / 2) * (INR x - INR w / 2)
           + (INR y - INR h / 2) * (INR y - INR h / 2) in
  let v := 1 - sqrt D / sqrt M in
  0 < M /\ 0 <= D /\
  cell (generate_gradient_mask w h) y x =
  (let value := if nltb (Fin v) (Fin 0) then Fin 0 else Fin v in
   if ngtb value (Fin 1) then Fin 1 else value).
Proof.
  intros Hy Hx M D v.
  assert (Hw : 1 <= INR w) by (apply (le_INR 1); lia).
  assert (Hh : 1 <= INR h) by (apply (le_INR 1); lia).
  assert (HM : 0 < M) by (unfold M; nra).
  assert (HD : 0 <= D)
    by (unfold D; apply Rplus_le_le_0_compat; apply Rle_0_sqr).
  split; [exact HM | split; [exact HD |]].
  unfold generate_gradient_mask. rewrite cell_tabulate by assumption.
  rewrite !of_nat_half. unfold of_nat.
  change (Fin (INR w / 2) * Fin (INR w / 2) + Fin (INR h / 2) * Fin (INR h / 2))%num
    with (Fin M).
  change ((Fin (INR x) - Fin (INR w / 2)) * (Fin (INR x) - Fin (INR w / 2))
          + (Fin (INR y) - Fin (INR h / 2)) * (Fin (INR y) - Fin (INR h / 2)))%num
    with (Fin D).
  rewrite !Math_sqrt_fin by lra.
  rewrite ndiv_fin.
  - reflexivity.
  - apply Rgt_not_eq. now apply sqrt_lt_R0.
Qed.

(** X11: the radial gradient mask is normalised for every size; for a
    non-empty mask the top-left cell is exactly 0, and when width and
    height are even the cell at [(width / 2, height / 2)] is exactly 1. *)
Theorem gradient_mask_range (w h : nat) :
  normalised (generate_gradient_mask w h) /\
  ((1 <= w)%nat -> (1 <= h)%nat ->
   cell (generate_gradient_mask w h) 0 0 = Fin 0) /\
  (forall y x, (1 <= x)%nat -> (1 <= y)%nat ->
     (2 * x = w)%nat -> (2 * y = h)%nat ->
     cell (generate_gradient_mask w h) y x = Fin 1).
Proof.
  split; [| split].
  - intros row Hrow v Hv.
    assert (Hcells : forall y x, (y < h)%nat -> (x < w)%nat ->
              in_unit (cell (generate_gradient_mask w h) y x)).
    { intros y x Hy Hx.
      destruct (gradient_mask_cell Hy Hx) as [_ [_ ->]].
      apply clamp_unit. }
    destruct (In_nth _ _ [] Hrow) as [y [Hy <-]].
    destruct (In_nth _ _ NaN Hv) as [x [Hx <-]].
    unfold generate_gradient_mask in Hy, Hx.
    rewrite tabulate_length in Hy.
    rewrite nth_tabulate, tabulate_length in Hx by assumption.
    now apply Hcells.
  - intros Hw Hh.
    destruct (@gradient_mask_cell w h 0 0 ltac:(lia) ltac:(lia))
      as [HM [_ ->]].
    set (M := INR w / 2 * (INR w / 2) + INR h / 2 * (INR h / 2)) in *.
    replace ((INR 0 - INR w / 2) * (INR 0 - INR w / 2)
             + (INR 0 - INR h / 2) * (INR 0 - INR h / 2)) with M
      by (unfold M; simpl; ring).
    assert (Hs : 0 < sqrt M) by now apply sqrt_lt_R0.
    replace (1 - sqrt M / sqrt M) with 0 by (field; lra).
    apply clamp_unit. lra.
  - intros y x Hx1 Hy1 Hx Hy.
    destruct (@gradient_mask_cell w h y x ltac:(lia) ltac:(lia))
      as [HM [_ ->]].
    assert (Ex : INR x - INR w / 2 = 0).
    { rewrite <- Hx, mult_INR. simpl. field. }
    assert (Ey : INR y - INR h / 2 = 0).
    { rewrite <- Hy, mult_INR. simpl. field. }
    rewrite Ex, Ey.
    replace (0 * 0 + 0 * 0) with 0 by ring. rewrite sqrt_0.
    match goal with |- context [1 - 0 / ?s] =>
      replace (1 - 0 / s) with 1 by (unfold Rdiv; ring) end.
    apply clamp_unit. lra.
Qed.

(** The value of [generate_island_mask] before the clamp at 0. *)
Lemma island_mask_cell (w h y x : nat) :
  (y < h)%nat -> (x < w)%nat ->
  let m := Rmin (INR w / 2) (INR h / 2) in
  let D := (INR x - INR w / 2) * (INR x - INR w / 2)
           + (INR y - INR h / 2) * (INR y - INR h / 2) in
  let v := 1 - sqrt D / m in
  0 < m /\ 0 <= D /\
  cell (generate_island_mask w h) y x =
  (if nltb (Fin v) (Fin 0) then Fin 0 else Fin v).
Proof.
  intros Hy Hx m D v.
  assert (Hw : 1 <= INR w) by (apply (le_INR 1); lia).
  assert (Hh : 1 <= INR h) by (apply (le_INR 1); lia).
  assert (Hm : 0 < m).
  { unfold m, Rmin. destruct (Rle_dec (INR w / 2) (INR h / 2)); lra. }
  assert (HD : 0 <= D)
    by (unfold D; apply Rplus_le_le_0_compat; apply Rle_0_sqr).
  split; [exact Hm | split; [exact HD |]].
  unfold generate_island_mask. rewrite cell_tabulate by assumption.
  rewrite !of_nat_half. unfold of_nat.
  change (Math_min (Fin (INR w / 2)) (Fin (INR h / 2))) with (Fin m).
  change ((Fin (INR x) - Fin (INR w / 2)) * (Fin (INR x) - Fin (INR w / 2))
          + (Fin (INR y) - Fin (INR h / 2)) * (Fin (INR y) - Fin (INR h / 2)))%num
    with (Fin D).
  rewrite Math_sqrt_fin by lra.
  rewrite ndiv_fin by lra. reflexivity.
Qed.

(** X12: the island mask is normalised for every size (its values never
    exceed 1 although only the lower bound is clamped), and every cell of
    its first row and of its first column is 0: the island is centred on
    [(width / 2, height / 2)], half a cell off the middle of the pixels. *)
Theorem island_mask_range (w h : nat) :
  normalised (generate_island_mask w h) /\
  forall y x, (y < h)%nat -> (x < w)%nat -> x = 0%nat \/ y = 0%nat ->
    cell (generate_island_mask w h) y x = Fin 0.
Proof.
  split.
  - intros row Hrow v Hv.
    destruct (In_nth _ _ [] Hrow) as [y [Hy <-]].
    destruct (In_nth _ _ NaN Hv) as [x [Hx <-]].
    unfold generate_island_mask in Hy, Hx.
    rewrite tabulate_length in Hy.
    rewrite nth_tabulate, tabulate_length in Hx by assumption.
    fold (generate_island_mask w h) in *.
    change (nth x (nth y (generate_island_mask w h) []) NaN)
      with (cell (generate_island_mask w h) y x).
    destruct (island_mask_cell Hy Hx) as [Hm [HD ->]].
    set (m := Rmin (INR w / 2) (INR h / 2)) in *.
    match goal with |- context [sqrt ?d / m] => set (D := d) in * end.
    assert (Hq : 0 <= sqrt D / m).
    { apply Rmult_le_pos; [apply sqrt_pos |]. left.
      now apply Rinv_0_lt_compat. }
    unfold nltb, Rltb. destruct (Rlt_dec (1 - sqrt D / m) 0).
    + exists 0. split; [reflexivity | lra].
    + eexists. split; [reflexivity | lra].
  - intros y x Hy Hx Hedge.
    destruct (island_mask_cell Hy Hx) as [Hm [HD ->]].
    set (m := Rmin (INR w / 2) (INR h / 2)) in *.
    match goal with |- context [sqrt ?d / m] => set (D := d) in * end.
    assert (HmD : m * m <= D).
    { assert (Hmw : m <= INR w / 2) by apply Rmin_l.
      assert (Hmh : m <= INR h / 2) by apply Rmin_r.
      assert (Hw2 : m * m <= INR w / 2 * (INR w / 2))
        by (apply Rmult_le_compat; lra).
      assert (Hh2 : m * m <= INR h / 2 * (INR h / 2))
        by (apply Rmult_le_compat; lra).
      pose proof (Rle_0_sqr (INR x - INR w / 2)) as Sx.
      pose proof (Rle_0_sqr (INR y - INR h / 2)) as Sy.
      unfold Rsqr in Sx, Sy. unfold D.
      destruct Hedge as [-> | ->]; simpl INR in *.
      - replace ((0 - INR w / 2) * (0 - INR w / 2))
          with (INR w / 2 * (INR w / 2)) by ring.
        lra.
      - replace ((0 - INR h / 2) * (0 - INR h / 2))
          with (INR h / 2 * (INR h / 2)) by ring.
        lra. }
    assert (Hs : m <= sqrt D).
    { rewrite <- (sqrt_square m) by lra. now apply sqrt_le_1; try nra. }
    assert (Hq : 1 <= sqrt D / m).
    { apply (Rmult_le_reg_r m); [exact Hm |].
      unfold Rdiv. rewrite Rmult_assoc, Rinv_l by lra. lra. }
    unfold nltb, Rltb. destruct (Rlt_dec (1 - sqrt D / m) 0);
      [reflexivity | f_equal; lra].
Qed.

(** The distance to the nearest edge, as [generate_edge_falloff] computes
    it. *)
Lemma edge_distance (w h y x : nat) :
  (y < h)%nat -> (x < w)%nat ->
  let d := Rmin (Rmin (INR x) (INR w - 1 - INR x))
                (Rmin (INR y) (INR h - 1 - INR y)) in
  0 <= d /\
  (x = 0%nat \/ y = 0%nat \/ x = (w - 1)%nat \/ y = (h - 1)%nat -> d = 0) /\
  Math_min (Math_min (of_nat x) (of_nat w - Fin 1 - of_nat x))
           (Math_min (of_nat y) (of_nat h - Fin 1 - of_nat y)) = Fin d.
Proof.
  intros Hy Hx d.
  assert (Hx0 : 0 <= INR x) by apply pos_INR.
  assert (Hy0 : 0 <= INR y) by apply pos_INR.
  assert (Hx1 : INR x + 1 <= INR w) by (rewrite <- S_INR; apply le_INR; lia).
  assert (Hy1 : INR y + 1 <= INR h) by (rewrite <- S_INR; apply le_INR; lia).
  assert (Hdx : 0 <= Rmin (INR x) (INR w - 1 - INR x))
    by (apply Rmin_glb; lra).
  assert (Hdy : 0 <= Rmin (INR y) (INR h - 1 - INR y))
    by (apply Rmin_glb; lra).
  split; [apply Rmin_glb; assumption |].
  split; [| reflexivity].
  intros Hedge. apply Rle_antisym; [| apply Rmin_glb; assumption].
  unfold d.
  destruct Hedge as [-> | [-> | [-> | ->]]].
  - eapply Rle_trans; [apply Rmin_l |]. eapply Rle_trans; [apply Rmin_l |].
    simpl. lra.
  - eapply Rle_trans; [apply Rmin_r |]. eapply Rle_trans; [apply Rmin_l |].
    simpl. lra.
  - eapply Rle_trans; [apply Rmin_l |]. eapply Rle_trans; [apply Rmin_r |].
    rewrite minus_INR by lia. simpl. lra.
  - eapply Rle_trans; [apply Rmin_r |]. eapply Rle_trans; [apply Rmin_r |].
    rewrite minus_INR by lia. simpl. lra.
Qed.

(** X13: with a positive margin the edge falloff mask is
    [min(1, d / margin)], [d] being the distance of the cell to the
    nearest edge: a number of [0, 1] that is 0 on the four borders and 1
    wherever [d >= margin]. *)
Theorem edge_falloff_profile (w h y x : nat) (margin : R) :
  0 < margin -> (y < h)%nat -> (x < w)%nat ->
  let d := Rmin (Rmin (INR x) (INR w - 1 - INR x))
                (Rmin (INR y) (INR h - 1 - INR y)) in
  cell (generate_edge_falloff w h (Some (Fin margin))) y x
  = Fin (Rmin 1 (d / margin)) /\
  in_unit (cell (generate_edge_falloff w h (Some (Fin margin))) y x) /\
  (x = 0%nat \/ y = 0%nat \/ x = (w - 1)%nat \/ y = (h - 1)%nat ->
   cell (generate_edge_falloff w h (Some (Fin margin))) y x = Fin 0) /\
  (margin <= d ->
   cell (generate_edge_falloff w h (Some (Fin margin))) y x = Fin 1).
Proof.
  intros Hm Hy Hx d.
  destruct (edge_distance Hy Hx) as [Hd [Hedge Ed]]. fold d in Hd, Hedge, Ed.
  assert (E : cell (generate_edge_falloff w h (Some (Fin margin))) y x
              = Fin (Rmin 1 (d / margin))).
  { unfold generate_edge_falloff. rewrite cell_tabulate by assumption.
    cbv zeta. rewrite Ed. unfold to_number. rewrite ndiv_fin by lra.
    reflexivity. }
  assert (Hq : 0 <= d / margin).
  { apply Rmult_le_pos; [exact Hd |]. left. now apply Rinv_0_lt_compat. }
  rewrite E. split; [reflexivity |]. split; [| split].
  - eexists. split; [reflexivity |].
    split; [apply Rmin_glb; lra | apply Rmin_l].
  - intros Hb. rewrite (Hedge Hb). f_equal.
    replace (0 / margin) with 0 by (unfold Rdiv; ring).
    unfold Rmin. destruct (Rle_dec 1 0); lra.
  - intros Hbig. f_equal.
    assert (1 <= d / margin).
    { apply (Rmult_le_reg_r margin); [exact Hm |].
      unfold Rdiv. rewrite Rmult_assoc, Rinv_l by lra. lra. }
    unfold Rmin. destruct (Rle_dec 1 (d / margin)); lra.
Qed.

Lemma edge_falloff_profile_witness :
  let d := Rmin (Rmin (INR 1) (INR 3 - 1 - INR 1))
                (Rmin (INR 1) (INR 3 - 1 - INR 1)) in
  cell (generate_edge_falloff 3 3 (Some (Fin 1))) 1 1
  = Fin (Rmin 1 (d / 1)) /\
  in_unit (cell (generate_edge_falloff 3 3 (Some (Fin 1))) 1 1) /\
  (1%nat = 0%nat \/ 1%nat = 0%nat \/ 1%nat = (3 - 1)%nat \/
   1%nat = (3 - 1)%nat ->
   cell (generate_edge_falloff 3 3 (Some (Fin 1))) 1 1 = Fin 0) /\
  (1 <= d -> cell (generate_edge_falloff 3 3 (Some (Fin 1))) 1 1 = Fin 1).
Proof.
  apply (@edge_falloff_profile 3 3 1 1 1); [lra | lia | lia].
Defined.

(** X14: a margin of 0 raises no error and does not give the mask of a
    positive margin: the cells of the four borders, at distance 0, become
    NaN ([0 / 0]) instead of 0; without a margin argument every cell is
    NaN. *)
Theorem edge_falloff_without_margin (w h y x : nat) :
  (y < h)%nat -> (x < w)%nat ->
  (x = 0%nat \/ y = 0%nat \/ x = (w - 1)%nat \/ y = (h - 1)%nat ->
   cell (generate_edge_falloff w h (Some (Fin 0))) y x = NaN) /\
  cell (generate_edge_falloff w h None) y x = NaN.
Proof.
  intros Hy Hx.
  destruct (edge_distance Hy Hx) as [Hd [Hedge Ed]].
  set (d := Rmin (Rmin (INR x) (INR w - 1 - INR x))
                 (Rmin (INR y) (INR h - 1 - INR y))) in *.
  assert (E : forall margin,
            cell (generate_edge_falloff w h margin) y x
            = Math_min (Fin 1) (Fin d / to_number margin)).
  { intros margin. unfold generate_edge_falloff.
    rewrite cell_tabulate by assumption. cbv zeta. now rewrite Ed. }
  split.
  - intros Hb. rewrite E, (Hedge Hb). simpl to_number.
    now rewrite ndiv_zero_zero.
  - rewrite E. reflexivity.
Qed.

Lemma edge_falloff_without_margin_witness :
  (2%nat = 0%nat \/ 1%nat = 0%nat \/ 2%nat = (3 - 1)%nat \/
   1%nat = (3 - 1)%nat ->
   cell (generate_edge_falloff 3 3 (Some (Fin 0))) 1 2 = NaN) /\
  cell (generate_edge_falloff 3 3 None) 1 2 = NaN.
Proof. apply (@edge_falloff_without_margin 3 3 1 2); lia. Defined.

(** The floor of a quotient of naturals is their integer quotient. *)
Lemma Int_part_nat_div (x k : nat) :
  (1 <= k)%nat -> Int_part (INR x / INR k) = Z.of_nat (x / k).
Proof.
  intros Hk. apply Int_part_bounds.
  assert (HkR : 0 < INR k) by (apply lt_0_INR; lia).
  pose proof (Nat.div_mod_eq x k) as E.
  pose proof (Nat.mod_upper_bound x k ltac:(lia)) as Hr.
  assert (ER : INR x = INR k * INR (x / k) + INR (x mod k)).
  { rewrite <- mult_INR, <- plus_INR. now f_equal. }
  assert (Hr0 : 0 <= INR (x mod k)) by apply pos_INR.
  assert (Hr1 : INR (x mod k) < INR k) by now apply lt_INR.
  rewrite <- INR_IZR_INZ.
  replace (INR x / INR k) with (INR (x / k) + INR (x mod k) / INR k)
    by (rewrite ER; field; lra).
  assert (0 <= INR (x mod k) / INR k < 1).
  { split.
    - apply Rmult_le_pos; [lra |]. left. now apply Rinv_0_lt_compat.
    - apply (Rmult_lt_reg_r (INR k)); [exact HkR |].
      unfold Rdiv. rewrite Rmult_assoc, Rinv_l by lra. lra. }
  lra.
Qed.

(** [m % 2] for a natural [m]. *)
Lemma nrem_two (m : nat) : nrem (Fin (INR m)) (Fin 2) = Fin (INR (m mod 2)).
Proof.
  unfold nrem. rewrite (@Rsign_pos 2) by lra. f_equal.
  assert (Hq : 0 <= INR m / 2).
  { apply Rmult_le_pos; [apply pos_INR | lra]. }
  unfold Rtrunc, Rltb. destruct (Rlt_dec (INR m / 2) 0); [lra |].
  change 2 with (INR 2) at 2. rewrite Int_part_nat_div by lia.
  rewrite <- INR_IZR_INZ.
  pose proof (Nat.div_mod_eq m 2) as E.
  assert (ER : INR m = INR 2 * INR (m / 2) + INR (m mod 2)).
  { rewrite <- mult_INR, <- plus_INR. now f_equal. }
  replace (INR 2) with 2 in ER by (simpl; lra). lra.
Qed.

Lemma even_mod2 (m : nat) : (m mod 2 = if Nat.even m then 0 else 1)%nat.
Proof.
  destruct (Nat.even m) eqn:E.
  - apply Nat.even_spec in E. destruct E as [c ->].
    rewrite Nat.mul_comm. apply Nat.Div0.mod_mul.
  - assert (O : Nat.odd m = true) by (rewrite <- Nat.negb_even, E; reflexivity).
    apply Nat.odd_spec in O. destruct O as [c ->].
    rewrite Nat.add_comm, Nat.mul_comm, Nat.Div0.mod_add. reflexivity.
Qed.

(** X15: for a size that is a positive integer [k], the checkerboard
    cell [(x, y)] is 1 when [x / k + y / k] (integer quotients) is even and
    0 when it is odd; with size 1 the cells to the right of and below a
    cell hold the other value. *)
Theorem checkerboard_parity (w h k y x : nat) :
  (1 <= k)%nat -> (y < h)%nat -> (x < w)%nat ->
  cell (generate_checkerboard w h (Some (of_nat k))) y x
  = (if Nat.even (x / k + y / k) then Fin 1 else Fin 0) /\
  (k = 1%nat ->
   ((S x < w)%nat ->
    cell (generate_checkerboard w h (Some (of_nat k))) y (S x)
    <> cell (generate_checkerboard w h (Some (of_nat k))) y x) /\
   ((S y < h)%nat ->
    cell (generate_checkerboard w h (Some (of_nat k))) (S y) x
    <> cell (generate_checkerboard w h (Some (of_nat k))) y x)).
Proof.
  intros Hk Hy Hx.
  assert (E : forall y' x', (y' < h)%nat -> (x' < w)%nat ->
            cell (generate_checkerboard w h (Some (of_nat k))) y' x'
            = (if Nat.even (x' / k + y' / k) then Fin 1 else Fin 0)).
  { intros y' x' Hy' Hx'. unfold generate_checkerboard.
    rewrite cell_tabulate by assumption.
    unfold to_number, of_nat.
    assert (HkR : INR k <> 0) by (apply not_0_INR; lia).
    rewrite !ndiv_fin by exact HkR.
    unfold Math_floor. rewrite !Int_part_nat_div by exact Hk.
    rewrite <- !INR_IZR_INZ.
    change (Fin (INR (x' / k)) + Fin (INR (y' / k)))%num
      with (Fin (INR (x' / k) + INR (y' / k))).
    rewrite <- plus_INR, nrem_two, even_mod2.
    destruct (Nat.even (x' / k + y' / k)); unfold neqb; simpl INR.
    - destruct (Req_dec_T 0 0); [reflexivity | lra].
    - destruct (Req_dec_T 1 0); [lra | reflexivity]. }
  split; [now apply E |].
  intros ->.
  assert (Hflip : forall m, (if Nat.even (S m) then Fin 1 else Fin 0)
                            <> (if Nat.even m then Fin 1 else Fin 0)).
  { intros m. rewrite Nat.even_succ, <- Nat.negb_even.
    destruct (Nat.even m); simpl; intros H; apply Fin_inj in H; lra. }
  split.
  - intros Hx'. rewrite (E y (S x)), (E y x) by assumption.
    rewrite !Nat.div_1_r. apply (Hflip (x + y)%nat).
  - intros Hy'. rewrite (E (S y) x), (E y x) by assumption.
    rewrite !Nat.div_1_r. rewrite Nat.add_succ_r. apply (Hflip (x + y)%nat).
Qed.

Lemma checkerboard_parity_witness :
  cell (generate_checkerboard 4 4 (Some (of_nat 2))) 1 2
  = (if Nat.even (2 / 2 + 1 / 2) then Fin 1 else Fin 0) /\
  (2%nat = 1%nat ->
   ((3 < 4)%nat ->
    cell (generate_checkerboard 4 4 (Some (of_nat 2))) 1 3
    <> cell (generate_checkerboard 4 4 (Some (of_nat 2))) 1 2) /\
   ((2 < 4)%nat ->
    cell (generate_checkerboard 4 4 (Some (of_nat 2))) 2 2
    <> cell (generate_checkerboard 4 4 (Some (of_nat 2))) 1 2)).
Proof. apply (@checkerboard_parity 4 4 2 1 2); lia. Defined.

(** X16: a checkerboard of size 0, or without a size argument, raises no
    error and is 0 everywhere (the quotients are NaN or infinite, and their
    remainder is never 0). *)
Theorem checkerboard_without_size (w h y x : nat) :
  (y < h)%nat -> (x < w)%nat ->
  cell (generate_checkerboard w h (Some (Fin 0))) y x = Fin 0 /\
  cell (generate_checkerboard w h None) y x = Fin 0.
Proof.
  intros Hy Hx. unfold generate_checkerboard.
  rewrite !cell_tabulate by assumption. split.
  - unfold to_number, of_nat.
    assert (Hq : forall n, (Fin (INR n) / Fin 0)%num = NaN
                           \/ (Fin (INR n) / Fin 0)%num = PInf).
    { intros n. destruct n as [| n'].
      - left. simpl INR. apply ndiv_zero_zero.
      - right. apply ndiv_pos_zero. apply lt_0_INR. lia. }
    destruct (Hq x) as [-> | ->], (Hq y) as [-> | ->]; reflexivity.
  - reflexivity.
Qed.

Lemma checkerboard_without_size_witness :
  cell (generate_checkerboard 2 2 (Some (Fin 0))) 1 1 = Fin 0 /\
  cell (generate_checkerboard 2 2 None) 1 1 = Fin 0.
Proof. apply (@checkerboard_without_size 2 2 1 1); lia. Defined.

(** * Further properties of the noise synthesis *)

Section Draws.

Context {rng : Type} {RS : FastRandomBlocks rng}.

Lemma advance_add (g : rng) (a b : nat) :
  advance (advance g a) b = advance g (a + b).
Proof.
  revert g. induction a as [| a IH]; intros g; simpl; [reflexivity |].
  apply IH.
Qed.

Lemma draw_add (g : rng) (a b : nat) : draw (advance g a) b = draw g (a + b).
Proof. unfold draw. now rewrite advance_add. Qed.

(** A loop whose body makes one draw and pushes a function of it. *)
Lemma one_draw_loop {A : Type} (f : Z -> A) (body : nat -> rng -> A * rng)
  (n i : nat) (g : rng) :
  (forall k t, body k t = (f (fst (nextNumber t)), snd (nextNumber t))) ->
  for_state_from i n body g
  = (map (fun k => f (draw g k)) (seq 0 n), advance g n).
Proof.
  intros Hbody. revert i g. induction n as [| n IH]; intros i g.
  - reflexivity.
  - cbn [for_state_from]. rewrite Hbody, (IH (S i)).
    cbn [seq map advance]. f_equal. f_equal.
    rewrite <- seq_shift, map_map. reflexivity.
Qed.

(** A loop whose body makes [w] draws and pushes a function of the
    generator it starts from. *)
Lemma block_draw_loop {A : Type} (r : rng -> A) (w : nat)
  (body : nat -> rng -> A * rng) (n i : nat) (g : rng) :
  (forall k t, body k t = (r t, advance t w)) ->
  for_state_from i n body g
  = (map (fun y => r (advance g (y * w))) (seq 0 n), advance g (n * w)).
Proof.
  intros Hbody. revert i g. induction n as [| n IH]; intros i g.
  - reflexivity.
  - cbn [for_state_from]. rewrite Hbody, (IH (S i)).
    rewrite advance_add. replace (w + n * w)%nat with (S n * w)%nat by lia.
    apply (f_equal (fun l => (l, advance g (S n * w)))).
    cbn [seq map]. change (0 * w)%nat with 0%nat. cbn [advance].
    apply (f_equal (cons (r g))).
    rewrite <- seq_shift, map_map. apply map_ext. intros y.
    rewrite advance_add. reflexivity.
Qed.

Lemma seeded_random_draw (g : rng) :
  seeded_random g
  = (Fin (IZR (fst (nextNumber g)) / 65535), snd (nextNumber g)).
Proof.
  unfold seeded_random. destruct (nextNumber g) as [n g']. cbn [fst snd].
  unfold of_Z. rewrite ndiv_fin by lra. reflexivity.
Qed.

Lemma random_unit_vector_draw (g : rng) :
  random_unit_vector g
  = (unit_of_draw (fst (nextNumber g)), snd (nextNumber g)).
Proof.
  unfold random_unit_vector. rewrite seeded_random_draw. reflexivity.
Qed.

(** [generate_static_noise], cell by cell. *)
Lemma generate_static_noise_cells (w h : nat) (g : rng) :
  exists F,
    generate_static_noise w h g = (F, advance g (h * w)) /\
    rectangular h w F /\
    forall y x, (y < h)%nat -> (x < w)%nat ->
      cell F y x = Fin (IZR (draw g (y * w + x)) / 65535).
Proof.
  set (row := fun t : rng =>
                map (fun k => Fin (IZR (draw t k) / 65535)) (seq 0 w)).
  exists (map (fun y => row (advance g (y * w))) (seq 0 h)).
  split; [| split].
  - unfold generate_static_noise, for_state.
    apply block_draw_loop. intros k t.
    apply (one_draw_loop (fun n => Fin (IZR n / 65535))).
    intros k' t'. apply seeded_random_draw.
  - split; [now rewrite length_map, length_seq |].
    apply Forall_forall. intros r Hr. apply in_map_iff in Hr.
    destruct Hr as [y [<- _]]. unfold row.
    now rewrite length_map, length_seq.
  - intros y x Hy Hx.
    change (map (fun y0 => row (advance g (y0 * w))) (seq 0 h))
      with (tabulate h (fun y0 => tabulate w (fun k =>
              Fin (IZR (draw (advance g (y0 * w)) k) / 65535)))).
    rewrite cell_tabulate by assumption. now rewrite draw_add.
Qed.

(** X17: static noise reads the random source in row-major order: the
    field has [height] rows of [width] cells, cell [(x, y)] is draw number
    [y * width + x] divided by 65535, and the call leaves the generator
    advanced by [width * height] draws and [nodes] and [gradients] as they
    were. *)
Theorem static_noise_is_the_draws (w h : nat) (scale : option nat)
  (s : State rng) :
  exists F,
    createNoiseMap NoiseType.Static w h scale s
    = (Ok F, mkState (nodes s) (gradients s)
                     (Some (advance (ensure_rng s) (h * w)))) /\
    rectangular h w F /\
    forall y x, (y < h)%nat -> (x < w)%nat ->
      cell F y x = Fin (IZR (draw (ensure_rng s) (y * w + x)) / 65535).
Proof.
  destruct (generate_static_noise_cells w h (ensure_rng s))
    as [F [HF [HR Hc]]].
  exists F. split; [| split].
  - unfold createNoiseMap. simpl Z.eqb. cbv iota. now rewrite HF.
  - exact HR.
  - exact Hc.
Qed.

(** X18: when every draw of the source is between 0 and 65535, static
    noise is normalised; a draw of 65535 gives exactly 1, so the values
    range over the closed interval. *)
Theorem static_noise_range (w h : nat) (scale : option nat) (s : State rng) :
  (forall t : rng, (0 <= fst (nextNumber t) <= 65535)%Z) ->
  (exists F, fst (createNoiseMap NoiseType.Static w h scale s) = Ok F /\
             normalised F) /\
  (forall t : rng, fst (nextNumber t) = 65535%Z ->
                   fst (seeded_random t) = Fin 1).
Proof.
  intros Hrange. split.
  - destruct (generate_static_noise_cells w h (ensure_rng s))
      as [F [HF [HR Hc]]].
    exists F. split.
    + unfold createNoiseMap. simpl Z.eqb. cbv iota. now rewrite HF.
    + intros row Hrow v Hv.
      destruct (In_nth _ _ [] Hrow) as [y [Hy <-]].
      destruct (In_nth _ _ NaN Hv) as [x [Hx <-]].
      destruct HR as [Hl Hrows]. rewrite Hl in Hy.
      rewrite Forall_forall in Hrows.
      rewrite (Hrows (nth y F [])) in Hx by (apply nth_In; lia).
      change (nth x (nth y F []) NaN) with (cell F y x).
      rewrite (Hc y x Hy Hx). unfold draw.
      destruct (Hrange (advance (ensure_rng s) (y * w + x))) as [Hlo Hhi].
      apply IZR_le in Hlo, Hhi.
      eexists. split; [reflexivity |]. lra.
  - intros t Ht. rewrite seeded_random_draw. simpl fst. rewrite Ht.
    f_equal. field.
Qed.

End Draws.

Lemma static_noise_range_witness :
  (exists F, fst (createNoiseMap NoiseType.Static 4 4 None
                    (initial_state 1234)) = Ok F /\
             normalised F) /\
  (forall t : Z, fst (nextNumber t) = 65535%Z ->
                 fst (seeded_random t) = Fin 1).
Proof.
  apply (@static_noise_range Z LCG 4 4 None (initial_state 1234)).
  intros t. cbn [nextNumber LCG fst].
  pose proof (Z.mod_pos_bound ((t * 75 + 74) mod 65537) 65536 eq_refl).
  lia.
Defined.

Section GradientDraws.

Context {rng : Type} {RS : FastRandomBlocks rng}.

(** X19: [initialize_gradients] makes exactly [nodes * nodes] draws, row
    by row: the grid has [nodes] rows of [nodes] vectors, the vector at row
    [i], column [j] is [(cos t, sin t)] for [t = d / 65535 * 2 * pi] with
    [d] the draw number [i * nodes + j], and every vector has length 1
    whatever the source draws. *)
Theorem initialize_gradients_layout (n : nat) (g : rng) :
  exists G,
    initialize_gradients n g = (G, advance g (n * n)) /\
    square_grid n G /\ unit_grid G /\
    forall i j, (i < n)%nat -> (j < n)%nat ->
      nth j (nth i G []) (mkvec NaN NaN) = unit_of_draw (draw g (i * n + j)).
Proof.
  set (row := fun t : rng => map (fun k => unit_of_draw (draw t k)) (seq 0 n)).
  assert (E : initialize_gradients n g
              = (map (fun i => row (advance g (i * n))) (seq 0 n),
                 advance g (n * n))).
  { unfold initialize_gradients, for_state.
    apply block_draw_loop. intros k t.
    apply (one_draw_loop unit_of_draw).
    intros k' t'. apply random_unit_vector_draw. }
  exists (map (fun i => row (advance g (i * n))) (seq 0 n)).
  split; [exact E |].
  pose proof (initialize_gradients_square n g) as HS.
  pose proof (initialize_gradients_unit n g) as HU.
  rewrite E in HS, HU. cbn [fst] in HS, HU.
  split; [exact HS |]. split; [exact HU |].
  intros i j Hi Hj.
  change (map (fun i0 => row (advance g (i0 * n))) (seq 0 n))
    with (tabulate n (fun i0 => tabulate n (fun k =>
            unit_of_draw (draw (advance g (i0 * n)) k)))).
  rewrite !nth_tabulate by assumption. now rewrite draw_add.
Qed.

End GradientDraws.

(** X20: on a [nodes] x [nodes] grid, [perlin_get] returns a value exactly
    for finite coordinates whose floors [x0], [y0] satisfy [0 <= x0],
    [x0 + 1 < nodes], [0 <= y0], [y0 + 1 < nodes]; for every other input
    (negative, on or past the last lattice line, infinite or NaN) it
    throws. *)
Theorem perlin_get_returns_iff (n : nat) (G : Grid) (x y : num) :
  square_grid n G ->
  ((exists v, perlin_get G x y = Ok v) <->
   exists xr yr, x = Fin xr /\ y = Fin yr /\
     (0 <= Int_part xr)%Z /\ (Int_part xr + 1 < Z.of_nat n)%Z /\
     (0 <= Int_part yr)%Z /\ (Int_part yr + 1 < Z.of_nat n)%Z).
Proof.
  intros HG. split.
  - intros [v Hv]. unfold perlin_get in Hv.
    destruct (perlin_blend G x y) as [b |] eqn:Eb; [| discriminate].
    destruct x as [xr | | |], y as [yr | | |]; try discriminate Eb.
    exists xr, yr. split; [reflexivity |]. split; [reflexivity |].
    exact (perlin_blend_returns _ _ HG Eb).
  - intros [xr [yr [-> [-> [Hx0 [Hx1 [Hy0 Hy1]]]]]]].
    now apply perlin_get_in_range with n.
Qed.

Lemma perlin_get_returns_iff_witness :
  (exists v, perlin_get sample_grid (Fin (1 / 2)) (Fin 2) = Ok v) <->
  exists xr yr, Fin (1 / 2) = Fin xr /\ Fin 2 = Fin yr /\
    (0 <= Int_part xr)%Z /\ (Int_part xr + 1 < Z.of_nat 2)%Z /\
    (0 <= Int_part yr)%Z /\ (Int_part yr + 1 < Z.of_nat 2)%Z.
Proof.
  apply (@perlin_get_returns_iff 2 sample_grid (Fin (1 / 2)) (Fin 2)).
  exact sample_grid_square.
Defined.

(** At a lattice point inside a grid of unit vectors the noise is exactly
    1/2, whatever the gradients: the displacement to the point's own
    vector is zero and the other three vectors have weight zero. *)
Lemma perlin_get_at_lattice_point (n : nat) (G : Grid) (i j : Z) :
  square_grid n G -> unit_grid G ->
  (0 <= i)%Z -> (i + 1 < Z.of_nat n)%Z ->
  (0 <= j)%Z -> (j + 1 < Z.of_nat n)%Z ->
  perlin_get G (of_Z i) (of_Z j) = Ok (Fin (1 / 2)).
Proof.
  intros HG HU Hi0 Hi1 Hj0 Hj1. unfold of_Z.
  destruct (@perlin_blend_in_range n G (IZR i) (IZR j) HG)
    as [g00 [g10 [g01 [g11 [I00 [I10 [I01 [I11 E]]]]]]]];
    rewrite ?Int_part_IZR; try assumption.
  rewrite !Int_part_IZR in E.
  destruct (in_grid_unit HU I00) as [ax [ay [-> _]]].
  destruct (in_grid_unit HU I10) as [bx [bY [-> _]]].
  destruct (in_grid_unit HU I01) as [cx [cy [-> _]]].
  destruct (in_grid_unit HU I11) as [dx [dy [-> _]]].
  rewrite !dot_with_fin in E.
  change (Fin (IZR i) - of_Z i)%num with (Fin (IZR i - IZR i)) in E.
  change (Fin (IZR j) - of_Z j)%num with (Fin (IZR j - IZR j)) in E.
  rewrite !interp_fin in E.
  unfold perlin_get. rewrite E.
  match goal with |- Ok ((Fin ?b + Fin 1) / Fin 2)%num = _ =>
    change (Fin b + Fin 1)%num with (Fin (b + 1)) end.
  rewrite ndiv_fin by lra. do 2 f_equal.
  rewrite !plus_IZR. unfold smooth. field.
Qed.

Lemma perlin_get_at_lattice_point_example :
  perlin_get sample_grid (of_Z 0) (of_Z 0) = Ok (Fin (1 / 2)).
Proof.
  apply (@perlin_get_at_lattice_point 2 sample_grid 0 0);
    first [exact sample_grid_square | exact sample_grid_unit | simpl; lia].
Qed.

Lemma rectangular_cells_normalised (h w : nat) (F : Field) :
  rectangular h w F ->
  (forall y x, (y < h)%nat -> (x < w)%nat -> in_unit (cell F y x)) ->
  normalised F.
Proof.
  intros [Hl Hrows] Hc row Hrow v Hv.
  destruct (In_nth _ _ [] Hrow) as [y [Hy <-]].
  destruct (In_nth _ _ NaN Hv) as [x [Hx <-]].
  rewrite Hl in Hy. rewrite Forall_forall in Hrows.
  rewrite (Hrows (nth y F [])) in Hx by (apply nth_In; lia).
  now apply Hc.
Qed.

Lemma ridged_value_unit (p : R) :
  0 <= p <= 1 ->
  exists r, ridged_value (Fin p) = Fin r /\ 0 <= r <= 1.
Proof.
  intros Hp. rewrite ridged_value_fin. eexists. split; [reflexivity |].
  unfold Rabs. destruct (Rcase_abs (2 * p - 1)); lra.
Qed.

Lemma Math_pow_1_5_unit (p : R) :
  0 <= p <= 1 -> in_unit (Math_pow_1_5 (Fin p)).
Proof.
  intros Hp. unfold Math_pow_1_5.
  destruct (Rtotal_order p 0) as [Hneg | [-> | Hpos]].
  - lra.
  - rewrite Rsign_zero. exists 0. split; [reflexivity | lra].
  - rewrite (Rsign_pos Hpos). eexists. split; [reflexivity |].
    unfold Rpower. split; [left; apply exp_pos |].
    assert (Hln : ln p <= 0).
    { rewrite <- ln_1. destruct (Req_dec p 1) as [-> | Hne]; [lra |].
      left. apply ln_increasing; lra. }
    destruct (Req_dec (3 / 2 * ln p) 0) as [E | Hne].
    + rewrite E, exp_0. lra.
    + rewrite <- exp_0. left. apply exp_increasing. lra.
Qed.

(** The river generator on top of the ridged one, for any grid. *)
Lemma generate_river_noise_cells (n w h : nat) (G : Grid) :
  (generate_ridged_noise n G w h = TypeError ->
   generate_river_noise n G w h = TypeError) /\
  (forall R, generate_ridged_noise n G w h = Ok R ->
     exists V,
       generate_river_noise n G w h = Ok V /\ rectangular h w V /\
       forall y x, (y < h)%nat -> (x < w)%nat ->
         cell V y x = (Fin 1 - cell R y x)%num).
Proof.
  unfold generate_river_noise. split.
  - intros ->. reflexivity.
  - intros R HR. rewrite HR.
    assert (Hlen : length R = h).
    { unfold generate_ridged_noise in HR.
      now destruct (for_each_inv _ _ [] HR). }
    destruct (@for_each_grid
                (fun y x =>
                   match nth_error R y with
                   | None => TypeError
                   | Some row => Ok (Fin 1 - nth x row NaN)%num
                   end) w h) as [V [HV [Hrect Hcells]]].
    + intros y x Hy Hx.
      destruct (nth_error R y) as [row |] eqn:Hrow; [now eexists |].
      apply nth_error_None in Hrow. lia.
    + exists V. split; [exact HV |]. split; [exact Hrect |].
      intros y x Hy Hx. specialize (Hcells y x Hy Hx).
      destruct (nth_error R y) as [row |] eqn:Hrow.
      * injection Hcells as <-. unfold cell.
        now rewrite (nth_error_nth _ _ _ Hrow).
      * discriminate Hcells.
Qed.

(** The four coherent generators on one grid of unit vectors, cell by
    cell. *)
Lemma coherent_generators_cells (n w h : nat) (G : Grid) :
  (2 <= n)%nat -> square_grid n G -> unit_grid G ->
  exists P R T V,
    generate_perlin_noise n G w h = Ok P /\
    generate_ridged_noise n G w h = Ok R /\
    generate_terrain_noise n G w h = Ok T /\
    generate_river_noise n G w h = Ok V /\
    rectangular h w P /\ rectangular h w R /\
    rectangular h w T /\ rectangular h w V /\
    forall y x, (y < h)%nat -> (x < w)%nat ->
      exists p, 0 <= p <= 1 /\
        perlin_get G (lattice_coord x w n) (lattice_coord y h n)
        = Ok (Fin p) /\
        cell P y x = Fin p /\
        cell R y x = ridged_value (Fin p) /\
        cell T y x = Math_pow_1_5 (Fin p) /\
        cell V y x = (Fin 1 - ridged_value (Fin p))%num.
Proof.
  intros Hn HG HU.
  assert (Hp : forall y x, (y < h)%nat -> (x < w)%nat ->
            exists p, 0 <= p <= 1 /\
              perlin_get G (lattice_coord x w n) (lattice_coord y h n)
              = Ok (Fin p)).
  { intros y x Hy Hx.
    destruct (@sample_evaluates n w h G Hn HG y x Hy Hx) as [v Hv].
    destruct (@lattice_coord_range x w n Hx ltac:(lia)) as [xr [Ex _]].
    destruct (@lattice_coord_range y h n Hy ltac:(lia)) as [yr [Ey _]].
    rewrite Ex, Ey in *.
    destruct (perlin_get_finite _ _ HG HU Hv) as [p [-> Hp]].
    now exists p. }
  destruct (@for_each_grid
              (fun y x => perlin_get G (lattice_coord x w n)
                                       (lattice_coord y h n)) w h)
    as [P [HP [RP CP]]].
  { intros y x Hy Hx. destruct (Hp y x Hy Hx) as [p [_ ->]]. now eexists. }
  destruct (@for_each_grid
              (fun y x =>
                 match perlin_get G (lattice_coord x w n)
                                    (lattice_coord y h n) with
                 | TypeError => TypeError
                 | Ok value => Ok (ridged_value value)
                 end) w h) as [R [HR [RR CR]]].
  { intros y x Hy Hx. destruct (Hp y x Hy Hx) as [p [_ ->]]. now eexists. }
  destruct (@for_each_grid
              (fun y x =>
                 match perlin_get G (lattice_coord x w n)
                                    (lattice_coord y h n) with
                 | TypeError => TypeError
                 | Ok value => Ok (Math_pow_1_5 value)
                 end) w h) as [T [HT [RT CT]]].
  { intros y x Hy Hx. destruct (Hp y x Hy Hx) as [p [_ ->]]. now eexists. }
  destruct (generate_river_noise_cells n w h G) as [_ HV].
  destruct (HV R HR) as [V [EV [RV CV]]].
  exists P, R, T, V. repeat (split; [assumption |]).
  intros y x Hy Hx. destruct (Hp y x Hy Hx) as [p [Hp01 Ep]].
  exists p. split; [exact Hp01 |]. split; [exact Ep |].
  specialize (CP y x Hy Hx). specialize (CR y x Hy Hx).
  specialize (CT y x Hy Hx). specialize (CV y x Hy Hx).
  rewrite Ep in CP, CR, CT.
  injection CP as CP. injection CR as CR. injection CT as CT.
  rewrite CV. rewrite <- CP, <- CR, <- CT. repeat split; reflexivity.
Qed.

Section CoherentKinds.

Context {rng : Type} {RS : FastRandomBlocks rng}.

(** [createNoiseMap] for a coherent kind, unfolded. *)
Lemma coherent_unfolded
  (generate : nat -> Grid -> nat -> nat -> result Field)
  (w h : nat) (scale : option nat) (s : State rng) :
  coherent generate w h scale s =
  let n := scale_or_default scale in
  let Gg := initialize_gradients n (ensure_rng s) in
  (generate n (fst Gg) w h, mkState n (fst Gg) (Some (snd Gg))).
Proof.
  unfold coherent.
  now destruct (initialize_gradients (scale_or_default scale) (ensure_rng s)).
Qed.

(** X21: River is the complement of Ridged: started from the same state
    the two calls leave the same state, River throws when Ridged throws,
    and otherwise every River cell is 1 minus the Ridged cell. *)
Theorem river_complements_ridged (w h : nat) (scale : option nat)
  (s : State rng) :
  snd (createNoiseMap NoiseType.River w h scale s)
  = snd (createNoiseMap NoiseType.Ridged w h scale s) /\
  (fst (createNoiseMap NoiseType.Ridged w h scale s) = TypeError ->
   fst (createNoiseMap NoiseType.River w h scale s) = TypeError) /\
  (forall R, fst (createNoiseMap NoiseType.Ridged w h scale s) = Ok R ->
     exists V,
       fst (createNoiseMap NoiseType.River w h scale s) = Ok V /\
       rectangular h w V /\
       forall y x, (y < h)%nat -> (x < w)%nat ->
         cell V y x = (Fin 1 - cell R y x)%num).
Proof.
  unfold createNoiseMap. simpl Z.eqb. cbv iota.
  rewrite !coherent_unfolded. cbv zeta. cbn [fst snd].
  split; [reflexivity |].
  apply generate_river_noise_cells.
Qed.

(** X22: for a scale of at least 2 every coherent kind (Perlin, Ridged,
    Terrain, River) returns a [height] x [width] field whose cells all
    lie in [0, 1]. *)
Theorem coherent_noise_is_normalised (noiseType : Z) (w h scale : nat)
  (s : State rng) :
  (2 <= scale)%nat -> In noiseType coherent_kinds ->
  exists F,
    fst (createNoiseMap noiseType w h (Some scale) s) = Ok F /\
    rectangular h w F /\ normalised F.
Proof.
  intros Hs Hkind.
  assert (Hd : scale_or_default (Some scale) = scale)
    by (destruct scale; [lia | reflexivity]).
  destruct (@coherent_generators_cells scale w h
              (fst (initialize_gradients scale (ensure_rng s))) Hs
              (initialize_gradients_square _ _)
              (initialize_gradients_unit _ _))
    as [P [R [T [V [HP [HR [HT [HV [RP [RR [RT [RV Hc]]]]]]]]]]]].
  unfold createNoiseMap.
  destruct Hkind as [<- | [<- | [<- | [<- | []]]]]; simpl Z.eqb; cbv iota;
    rewrite coherent_unfolded; cbv zeta; rewrite Hd; cbn [fst].
  - exists P. split; [exact HP |]. split; [exact RP |].
    apply (rectangular_cells_normalised RP). intros y x Hy Hx.
    destruct (Hc y x Hy Hx) as [p [Hp [_ [-> _]]]]. now exists p.
  - exists R. split; [exact HR |]. split; [exact RR |].
    apply (rectangular_cells_normalised RR). intros y x Hy Hx.
    destruct (Hc y x Hy Hx) as [p [Hp [_ [_ [-> _]]]]].
    now apply ridged_value_unit.
  - exists T. split; [exact HT |]. split; [exact RT |].
    apply (rectangular_cells_normalised RT). intros y x Hy Hx.
    destruct (Hc y x Hy Hx) as [p [Hp [_ [_ [_ [-> _]]]]]].
    now apply Math_pow_1_5_unit.
  - exists V. split; [exact HV |]. split; [exact RV |].
    apply (rectangular_cells_normalised RV). intros y x Hy Hx.
    destruct (Hc y x Hy Hx) as [p [Hp [_ [_ [_ [_ ->]]]]]].
    destruct (ridged_value_unit Hp) as [r [-> Hr]].
    exists (1 - r). split; [reflexivity | lra].
Qed.

End CoherentKinds.

Lemma coherent_noise_is_normalised_witness :
  exists F,
    fst (createNoiseMap NoiseType.Terrain 5 3 (Some 4%nat) (initial_state 7))
    = Ok F /\
    rectangular 3 5 F /\ normalised F.
Proof.
  apply (@coherent_noise_is_normalised Z LCG NoiseType.Terrain 5 3 4
           (initial_state 7)); [lia |].
  unfold coherent_kinds. simpl. tauto.
Defined.

Lemma lattice_coord_origin (size n : nat) :
  (1 <= size)%nat -> lattice_coord 0 size n = of_Z 0.
Proof.
  intros Hs. unfold lattice_coord, of_nat, of_Z.
  rewrite ndiv_fin by (apply not_0_INR; lia).
  change (Fin (INR 0 / INR size) * (Fin (INR n) - Fin 1))%num
    with (Fin (INR 0 / INR size * (INR n - 1))).
  f_equal. simpl INR. unfold Rdiv. ring.
Qed.

Section LatticePixels.

Context {rng : Type} {RS : FastRandomBlocks rng}.

(** X23: the top-left pixel does not depend on the random source: it is
    sampled at the lattice point [(0, 0)], where every gradient is
    multiplied by an offset or a weight of 0, and is 1/2 for Perlin, 1 for
    Ridged, 0 for River and [0.5 ** 1.5] for Terrain, whatever the size,
    the scale and the state. *)
Theorem top_left_pixel_is_constant (w h scale : nat) (s : State rng) :
  (2 <= scale)%nat -> (1 <= w)%nat -> (1 <= h)%nat ->
  (exists F, fst (createNoiseMap NoiseType.Perlin w h (Some scale) s) = Ok F
             /\ cell F 0 0 = Fin (1 / 2)) /\
  (exists F, fst (createNoiseMap NoiseType.Ridged w h (Some scale) s) = Ok F
             /\ cell F 0 0 = Fin 1) /\
  (exists F, fst (createNoiseMap NoiseType.River w h (Some scale) s) = Ok F
             /\ cell F 0 0 = Fin 0) /\
  (exists F, fst (createNoiseMap NoiseType.Terrain w h (Some scale) s) = Ok F
             /\ cell F 0 0 = Math_pow_1_5 (Fin (1 / 2))).
Proof.
  intros Hs Hw Hh.
  assert (Hd : scale_or_default (Some scale) = scale)
    by (destruct scale; [lia | reflexivity]).
  pose proof (initialize_gradients_square scale (ensure_rng s)) as HG.
  pose proof (initialize_gradients_unit scale (ensure_rng s)) as HU.
  destruct (@coherent_generators_cells scale w h _ Hs HG HU)
    as [P [R [T [V [HP [HR [HT [HV [_ [_ [_ [_ Hc]]]]]]]]]]]].
  destruct (Hc 0%nat 0%nat Hh Hw) as [p [_ [Ep [CP [CR [CT CV]]]]]].
  assert (Hhalf : p = 1 / 2).
  { rewrite !lattice_coord_origin in Ep by assumption.
    rewrite (@perlin_get_at_lattice_point scale _ 0 0 HG HU) in Ep by lia.
    injection Ep as <-. reflexivity. }
  subst p.
  assert (ER : ridged_value (Fin (1 / 2)) = Fin 1).
  { rewrite ridged_value_fin. f_equal.
    replace (2 * (1 / 2) - 1) with 0 by lra. rewrite Rabs_R0. lra. }
  rewrite ER in CR, CV.
  unfold createNoiseMap. simpl Z.eqb. cbv iota.
  rewrite !coherent_unfolded. cbv zeta. rewrite Hd. cbn [fst].
  split; [now exists P |]. split; [now exists R |].
  split; [exists V; split; [exact HV |] | now exists T].
  rewrite CV. simpl. f_equal. lra.
Qed.

(** X24: the scale argument: an absent scale and a scale of 0 both mean
    4; with a scale of 1 the grid has a single vector, the first sample
    already reads past it, and every coherent kind throws for any
    non-empty size. *)
Theorem scale_edge_cases (noiseType : Z) (w h : nat) (s : State rng) :
  createNoiseMap noiseType w h None s
  = createNoiseMap noiseType w h (Some 4%nat) s /\
  createNoiseMap noiseType w h (Some 0%nat) s
  = createNoiseMap noiseType w h (Some 4%nat) s /\
  ((1 <= w)%nat -> (1 <= h)%nat -> In noiseType coherent_kinds ->
   fst (createNoiseMap noiseType w h (Some 1%nat) s) = TypeError).
Proof.
  split; [reflexivity |]. split; [reflexivity |].
  intros Hw Hh Hkind.
  pose proof (initialize_gradients_square 1 (ensure_rng s)) as HG.
  set (G := fst (initialize_gradients 1 (ensure_rng s))) in *.
  assert (Hsample : perlin_get G (lattice_coord 0 w 1) (lattice_coord 0 h 1)
                    = TypeError).
  { rewrite !lattice_coord_origin by lia. unfold of_Z.
    apply perlin_get_past_the_grid with 1%nat; [exact HG |].
    rewrite Int_part_IZR. simpl. lia. }
  assert (HR : generate_ridged_noise 1 G w h = TypeError).
  { unfold generate_ridged_noise.
    apply for_each_throws with 0%nat; [lia |].
    apply for_each_throws with 0%nat; [lia |]. now rewrite Hsample. }
  unfold createNoiseMap.
  destruct Hkind as [<- | [<- | [<- | [<- | []]]]]; simpl Z.eqb; cbv iota;
    rewrite coherent_unfolded; cbv zeta; cbn [scale_or_default fst];
    fold G.
  - unfold generate_perlin_noise.
    apply for_each_throws with 0%nat; [lia |].
    now apply for_each_throws with 0%nat; [lia |].
  - exact HR.
  - unfold generate_terrain_noise.
    apply for_each_throws with 0%nat; [lia |].
    apply for_each_throws with 0%nat; [lia |]. now rewrite Hsample.
  - now apply generate_river_noise_cells.
Qed.

End LatticePixels.

Lemma top_left_pixel_is_constant_witness :
  (exists F, fst (createNoiseMap NoiseType.Perlin 4 2 (Some 3%nat)
                    (initial_state 7)) = Ok F
             /\ cell F 0 0 = Fin (1 / 2)) /\
  (exists F, fst (createNoiseMap NoiseType.Ridged 4 2 (Some 3%nat)
                    (initial_state 7)) = Ok F
             /\ cell F 0 0 = Fin 1) /\
  (exists F, fst (createNoiseMap NoiseType.River 4 2 (Some 3%nat)
                    (initial_state 7)) = Ok F
             /\ cell F 0 0 = Fin 0) /\
  (exists F, fst (createNoiseMap NoiseType.Terrain 4 2 (Some 3%nat)
                    (initial_state 7)) = Ok F
             /\ cell F 0 0 = Math_pow_1_5 (Fin (1 / 2))).
Proof.
  apply (@top_left_pixel_is_constant Z LCG 4 2 3 (initial_state 7)); lia.
Defined.

(** An octave whose last column or last row samples on or past the last
    lattice line throws. *)
Lemma add_layer_throws (n w h : nat) (G : Grid) (L : R)
  (amplitude : num) (noiseMap : Field) :
  square_grid n G -> (1 <= w)%nat -> (1 <= h)%nat -> 0 <= L ->
  INR n - 1 <= INR (w - 1) / INR w * L \/
  INR n - 1 <= INR (h - 1) / INR h * L ->
  add_layer G w h (Fin L) amplitude noiseMap = TypeError.
Proof.
  intros HG Hw Hh HL Hpast.
  assert (Hthrow : forall x y, (x < w)%nat -> (y < h)%nat ->
            INR n - 1 <= INR x / INR w * L \/ INR n - 1 <= INR y / INR h * L ->
            perlin_get G (of_nat x / of_nat w * Fin L)%num
                         (of_nat y / of_nat h * Fin L)%num = TypeError).
  { intros x y Hx Hy Hxy. unfold of_nat.
    rewrite !ndiv_fin by (apply not_0_INR; lia).
    change (Fin (INR x / INR w) * Fin L)%num with (Fin (INR x / INR w * L)).
    change (Fin (INR y / INR h) * Fin L)%num with (Fin (INR y / INR h * L)).
    destruct (perlin_get G (Fin (INR x / INR w * L))
                (Fin (INR y / INR h * L))) as [v |] eqn:E; [| reflexivity].
    unfold perlin_get in E.
    destruct (perlin_blend G (Fin (INR x / INR w * L))
                (Fin (INR y / INR h * L))) as [b |] eqn:Eb; [| discriminate].
    destruct (perlin_blend_returns _ _ HG Eb) as [_ [Hx1 [_ Hy1]]].
    assert (Hf : forall r, INR n - 1 <= r ->
               (Z.of_nat n <= Int_part r + 1)%Z).
    { intros r Hr. destruct (base_Int_part r) as [_ Hhi].
      assert (Hlt : IZR (Z.of_nat n - 2) < IZR (Int_part r))
        by (rewrite minus_IZR, <- INR_IZR_INZ; lra).
      apply lt_IZR in Hlt. lia. }
    destruct Hxy as [Hr | Hr]; apply Hf in Hr; lia. }
  unfold add_layer.
  destruct Hpast as [Hp | Hp].
  - apply for_each_throws with 0%nat; [lia |].
    apply for_each_throws with (w - 1)%nat; [lia |].
    rewrite Hthrow; [reflexivity | lia | lia | now left].
  - apply for_each_throws with (h - 1)%nat; [lia |].
    apply for_each_throws with 0%nat; [lia |].
    rewrite Hthrow; [reflexivity | lia | lia | now right].
Qed.

Section Layers.

Context {rng : Type} {RS : FastRandomBlocks rng}.

Lemma layer_loop_throws_now (c i n w h : nat) (p : num) (noiseMap : Field)
  (amplitude total : num) (G0 : Grid) (g : rng) :
  (forall G nm amp, square_grid n G ->
     add_layer G w h (of_nat n * npow (Fin 2) i)%num amp nm = TypeError) ->
  fst (layer_loop (S c) i n w h p noiseMap amplitude total G0 g) = TypeError.
Proof.
  intros Hthrow. cbn [layer_loop].
  pose proof (initialize_gradients_square n g) as HG.
  destruct (initialize_gradients n g) as [G' g']. cbn [fst] in HG.
  now rewrite (Hthrow G' noiseMap amplitude HG).
Qed.

Lemma layer_loop_throws_next (c i n w h : nat) (p : num) (noiseMap : Field)
  (amplitude total : num) (G0 : Grid) (g : rng) :
  (forall G nm amp, square_grid n G ->
     add_layer G w h (of_nat n * npow (Fin 2) (S i))%num amp nm = TypeError) ->
  fst (layer_loop (S (S c)) i n w h p noiseMap amplitude total G0 g)
  = TypeError.
Proof.
  intros Hthrow. cbn [layer_loop].
  destruct (initialize_gradients n g) as [G' g'].
  destruct (add_layer G' w h (of_nat n * npow (Fin 2) i)%num amplitude
              noiseMap) as [noiseMap' |]; [| reflexivity].
  pose proof (initialize_gradients_square n g') as HG.
  destruct (initialize_gradients n g') as [G'' g'']. cbn [fst] in HG.
  now rewrite (Hthrow G'' noiseMap' _ HG).
Qed.

Lemma createLayeredNoiseMap_throws (w h layers : nat) (scale : option nat)
  (persistence : option num) (s : State rng) :
  fst (layer_loop layers 0 (scale_or_default scale) w h
         (persistence_or_default persistence)
         (tabulate h (fun y => tabulate w (fun x => Fin 0)))
         (Fin 1) (Fin 0) (gradients s) (ensure_rng s)) = TypeError ->
  fst (createLayeredNoiseMap w h layers scale persistence s) = TypeError.
Proof.
  intros H. unfold createLayeredNoiseMap.
  destruct (layer_loop layers 0 (scale_or_default scale) w h
              (persistence_or_default persistence)
              (tabulate h (fun y => tabulate w (fun x => Fin 0)))
              (Fin 1) (Fin 0) (gradients s) (ensure_rng s))
    as [[[nm tot] |] [G g']]; [discriminate H | reflexivity].
Qed.

(** X25: [createLayeredNoiseMap] throws for every non-empty size as soon
    as the first octave reaches the last lattice line (at least one layer,
    and a width or a height not below the scale in effect) or a second
    octave exists (at least two layers, and a width or a height of at
    least 2); the block's defaults, 160 x 120 with 3 layers at scale 4,
    are such a case. *)
Theorem layered_noise_throws (w h layers : nat) (scale : option nat)
  (persistence : option num) (s : State rng) :
  (1 <= w)%nat -> (1 <= h)%nat ->
  ((1 <= layers)%nat /\
   (scale_or_default scale <= w \/ scale_or_default scale <= h)%nat) \/
  ((2 <= layers)%nat /\ (2 <= w \/ 2 <= h)%nat) ->
  fst (createLayeredNoiseMap w h layers scale persistence s) = TypeError.
Proof.
  intros Hw Hh Hcase. apply createLayeredNoiseMap_throws.
  set (n := scale_or_default scale).
  assert (Hn : (1 <= n)%nat).
  { unfold n, scale_or_default. destruct scale as [[| k] |]; lia. }
  assert (HnR : 1 <= INR n) by (apply (le_INR 1); exact Hn).
  assert (Hfrac : forall m, (1 <= m)%nat ->
            0 < INR m /\ INR (m - 1) / INR m = 1 - 1 / INR m).
  { intros m Hm. assert (0 < INR m) by (apply lt_0_INR; lia).
    split; [assumption |]. rewrite minus_INR by lia. simpl. field. lra. }
  assert (Hinv : forall m k, (1 <= k <= m)%nat -> INR k / INR m <= 1).
  { intros m k Hk. assert (0 < INR m) by (apply lt_0_INR; lia).
    apply (Rmult_le_reg_r (INR m)); [assumption |].
    unfold Rdiv. rewrite Rmult_assoc, Rinv_l by lra.
    rewrite Rmult_1_r, Rmult_1_l. apply le_INR. lia. }
  destruct Hcase as [[Hl Hsize] | [Hl Hsize]].
  - destruct layers as [| c]; [lia |].
    apply (@layer_loop_throws_now c 0 n w h _ _ _ _ (gradients s)
             (ensure_rng s)).
    intros G nm amp HG.
    change (of_nat n * npow (Fin 2) 0)%num with (Fin (INR n * 1)).
    apply add_layer_throws with n; try assumption; [lra |].
    destruct Hsize as [Hs | Hs]; [left | right].
    + destruct (Hfrac w Hw) as [Hpos ->].
      pose proof (Hinv w n ltac:(lia)) as Hq.
      replace ((1 - 1 / INR w) * (INR n * 1)) with (INR n - INR n / INR w)
        by (field; lra).
      lra.
    + destruct (Hfrac h Hh) as [Hpos ->].
      pose proof (Hinv h n ltac:(lia)) as Hq.
      replace ((1 - 1 / INR h) * (INR n * 1)) with (INR n - INR n / INR h)
        by (field; lra).
      lra.
  - destruct layers as [| [| c]]; try lia.
    apply (@layer_loop_throws_next c 0 n w h _ _ _ _ (gradients s)
             (ensure_rng s)).
    intros G nm amp HG.
    change (of_nat n * npow (Fin 2) 1)%num with (Fin (INR n * 2 ^ 1)).
    apply add_layer_throws with n; try assumption; [simpl; lra |].
    destruct Hsize as [Hs | Hs]; [left | right].
    + destruct (Hfrac w Hw) as [Hpos ->].
      pose proof (Hinv w 2%nat ltac:(lia)) as Hq. simpl INR in Hq.
      replace ((1 - 1 / INR w) * (INR n * 2 ^ 1))
        with (INR n * (2 - (1 + 1) / INR w)) by (field; lra).
      nra.
    + destruct (Hfrac h Hh) as [Hpos ->].
      pose proof (Hinv h 2%nat ltac:(lia)) as Hq. simpl INR in Hq.
      replace ((1 - 1 / INR h) * (INR n * 2 ^ 1))
        with (INR n * (2 - (1 + 1) / INR h)) by (field; lra).
      nra.
Qed.

(** X26: with [layers = 0] nothing is sampled and nothing is drawn: the
    call returns a [height] x [width] field of NaN (the zero field divided
    by a total amplitude of 0) and only sets [nodes]. *)
Theorem layered_noise_without_layers (w h : nat) (scale : option nat)
  (persistence : option num) (s : State rng) :
  createLayeredNoiseMap w h 0 scale persistence s =
  (Ok (tabulate h (fun y => tabulate w (fun x => NaN))),
   mkState (scale_or_default scale) (gradients s) (Some (ensure_rng s))).
Proof.
  unfold createLayeredNoiseMap. cbn [layer_loop]. f_equal.
  apply (f_equal (@Ok Field)). unfold tabulate. rewrite map_map.
  apply map_ext. intros y. rewrite map_map. apply map_ext. intros x.
  apply ndiv_zero_zero.
Qed.

End Layers.

Lemma layered_noise_throws_witness :
  fst (createLayeredNoiseMap 160 120 3 None None (initial_state 1))
  = TypeError.
Proof.
  apply (@layered_noise_throws Z LCG 160 120 3 None None (initial_state 1));
    [lia | lia | left; simpl; lia].
Defined.
